(** * Tree, forest, branching and arborescence recognition

    A shallow embedding of [networkx/algorithms/tree/recognition.py]
    ([is_forest], [is_tree], [is_branching], [is_arborescence]) together with
    the graph primitives these four predicates query, and the proofs of the
    properties stated for them. *)

From Stdlib Require Import List ZArith Bool Arith Lia Permutation.
Import ListNotations.
Open Scope Z_scope.

(** ** Exceptions and the call-recording monad *)

(** The exceptions the predicates can end with.  [ValueError] is what
    Python's [max] raises on an empty sequence. *)
Inductive exn : Type :=
| NetworkXPointlessConcept
| NetworkXNotImplemented
| ValueError.

Inductive result (A : Type) : Type :=
| Ok (a : A)
| Raise (e : exn).
Arguments Ok {A} a.
Arguments Raise {A} e.

(** The queries a predicate sends to the graph library.  A computation
    records them in the order they are made, so that "is not computed" is a
    statement about the recorded calls.  [Call_max] is the call of Python's
    [max]. *)
Inductive call : Type :=
| Call_number_of_nodes
| Call_number_of_edges
| Call_is_directed
| Call_in_degree
| Call_max
| Call_is_connected
| Call_is_weakly_connected
| Call_connected_component_subgraphs
| Call_weakly_connected_component_subgraphs.

Definition call_eqb (a b : call) : bool :=
  match a, b with
  | Call_number_of_nodes, Call_number_of_nodes
  | Call_number_of_edges, Call_number_of_edges
  | Call_is_directed, Call_is_directed
  | Call_in_degree, Call_in_degree
  | Call_max, Call_max
  | Call_is_connected, Call_is_connected
  | Call_is_weakly_connected, Call_is_weakly_connected
  | Call_connected_component_subgraphs, Call_connected_component_subgraphs
  | Call_weakly_connected_component_subgraphs,
    Call_weakly_connected_component_subgraphs => true
  | _, _ => false
  end.

(** A computation: the calls made so far and how it ended. *)
Definition M (A : Type) : Type := (list call * result A)%type.

Definition ret {A} (a : A) : M A := ([], Ok a).
Definition raise {A} (e : exn) : M A := ([], Raise e).
Definition query {A} (c : call) (a : A) : M A := ([c], Ok a).

Definition bind {A B} (m : M A) (k : A -> M B) : M B :=
  match m with
  | (t, Ok a) => let (t', r) := k a in (t ++ t', r)
  | (t, Raise e) => (t, Raise e)
  end.

Notation "x <- m ;; k" := (bind m (fun x => k))
  (at level 61, m at next level, right associativity).

Definition outcome {A} (m : M A) : result A := snd m.
Definition calls {A} (m : M A) : list call := fst m.
Definition made (c : call) {A} (m : M A) : bool :=
  existsb (call_eqb c) (calls m).

(** ** The graph view *)

Definition node : Type := nat.
Definition edge : Type := (node * node)%type.

(** Modelled from the spec: the graph class is not part of the recognition
    module.  A graph is what [add_nodes_from] and [add_edges_from] were given:
    the directedness flag, the nodes added on their own and the edges, each
    added edge counted once (parallel edges are distinct edges).  An edge
    brings its two end points into the node set, as [add_edge] does. *)
Record graph : Type := mkGraph {
  directed : bool;
  nodes_from : list node;
  edges_from : list edge
}.

Definition DiGraph := mkGraph true.
Definition Graph := mkGraph false.

Definition ends (e : edge) : list node := [fst e; snd e].

Definition nodes (G : graph) : list node :=
  nodup Nat.eq_dec (nodes_from G ++ flat_map ends (edges_from G)).

Definition edges (G : graph) : list edge := edges_from G.

Definition mem (v : node) (l : list node) : bool := existsb (Nat.eqb v) l.

(** [G.subgraph(c)]: the nodes of [c] that are in [G] and the edges of [G]
    with both end points in [c]. *)
Definition induced_edges (G : graph) (c : list node) : list edge :=
  filter (fun e => mem (fst e) c && mem (snd e) c) (edges G).

Definition subgraph (G : graph) (c : list node) : graph :=
  mkGraph (directed G) (filter (fun v => mem v (nodes G)) c) (induced_edges G c).

(** Adjacency in the underlying undirected structure: the direction of an
    edge is ignored. *)
Definition joins (u w : node) (e : edge) : bool :=
  (Nat.eqb (fst e) u && Nat.eqb (snd e) w) || (Nat.eqb (fst e) w && Nat.eqb (snd e) u).

Definition adjb (G : graph) (u w : node) : bool := existsb (joins u w) (edges G).

(** Modelled from the spec: the traversal behind the connectivity queries is
    not part of the recognition module.  Breadth-first search by levels: the
    next level is every node not yet seen that has a neighbour among the
    seen ones; one level per unit of fuel. *)
Definition next_level (G : graph) (seen : list node) : list node :=
  filter (fun u => negb (mem u seen) && existsb (fun w => adjb G w u) seen) (nodes G).

Fixpoint bfs_levels (G : graph) (fuel : nat) (seen : list node) : list node :=
  match fuel with
  | O => seen
  | S k => bfs_levels G k (seen ++ next_level G seen)
  end.

Definition plain_bfs (G : graph) (source : node) : list node :=
  bfs_levels G (length (nodes G)) [source].

(** Modelled from the spec: [connected_components] of the graph library:
    every node not seen so far starts a new component, the nodes reached
    from it. *)
Fixpoint components_loop (G : graph) (todo seen : list node) : list (list node) :=
  match todo with
  | [] => []
  | v :: rest =>
      if mem v seen then components_loop G rest seen
      else let c := plain_bfs G v in c :: components_loop G rest (c ++ seen)
  end.

Definition component_node_lists (G : graph) : list (list node) :=
  components_loop G (nodes G) [].

(** ** The queries of the graph library, as recorded calls *)

Definition number_of_nodes (G : graph) : M Z :=
  query Call_number_of_nodes (Z.of_nat (length (nodes G))).

Definition number_of_edges (G : graph) : M Z :=
  query Call_number_of_edges (Z.of_nat (length (edges G))).

Definition is_directed (G : graph) : M bool :=
  query Call_is_directed (directed G).

(** The in-degree of a node: the edges that end at it. *)
Definition in_degree_of (G : graph) (v : node) : Z :=
  Z.of_nat (length (filter (fun e => Nat.eqb (snd e) v) (edges G))).

(** [G.in_degree()]: the dictionary node -> in-degree, one entry per node. *)
Definition in_degree_dict (G : graph) : list (node * Z) :=
  map (fun v => (v, in_degree_of G v)) (nodes G).

Definition in_degree (G : graph) : M (list (node * Z)) :=
  query Call_in_degree (in_degree_dict G).

Definition values {K V : Type} (d : list (K * V)) : list V := map snd d.

(** Python's [max] over a sequence: [ValueError] on the empty one. *)
Definition py_max (l : list Z) : M Z :=
  _ <- query Call_max tt ;;
  match l with
  | [] => raise ValueError
  | x :: xs => ret (fold_left Z.max xs x)
  end.

(** Modelled from the spec: [IsConnected() -> bool].  The nodes reached from
    the first node are all the nodes; the question is undefined on the graph
    without nodes. *)
Definition connectivity (G : graph) : M bool :=
  match nodes G with
  | [] => raise NetworkXPointlessConcept
  | v :: _ => ret (Nat.eqb (length (plain_bfs G v)) (length (nodes G)))
  end.

Definition is_connected (G : graph) : M bool :=
  _ <- query Call_is_connected tt ;; connectivity G.

Definition is_weakly_connected (G : graph) : M bool :=
  _ <- query Call_is_weakly_connected tt ;; connectivity G.

(** Modelled from the spec: [ConnectedComponents()] and
    [WeaklyConnectedComponents()], each a sequence of component views. *)
Definition connected_component_subgraphs (G : graph) : M (list graph) :=
  query Call_connected_component_subgraphs
        (map (subgraph G) (component_node_lists G)).

Definition weakly_connected_component_subgraphs (G : graph) : M (list graph) :=
  query Call_weakly_connected_component_subgraphs
        (map (subgraph G) (component_node_lists G)).

(** Modelled from the spec: the decorator [not_implemented_for('undirected')]
    of [networkx.utils] is not part of the recognition module.  It fails with
    the unsupported-operation error on an undirected graph before the
    decorated function runs. *)
Definition not_implemented_for_undirected {A} (f : graph -> M A) (G : graph) : M A :=
  d <- is_directed G ;;
  if negb d then raise NetworkXNotImplemented else f G.

(** ** The four predicates *)

(** The body of the [for component in components(G)] loop of [is_forest],
    with its early [return False]. *)
Fixpoint forest_loop (cs : list graph) : M bool :=
  match cs with
  | [] => ret true
  | component :: rest =>
      e <- number_of_edges component ;;
      k <- number_of_nodes component ;;
      if negb (e =? k - 1) then ret false else forest_loop rest
  end.

Definition is_forest (G : graph) : M bool :=
  n <- number_of_nodes G ;;
  if n =? 0 then raise NetworkXPointlessConcept
  else
    d <- is_directed G ;;
    let components :=
      if d then weakly_connected_component_subgraphs
      else connected_component_subgraphs in
    cs <- components G ;;
    forest_loop cs.

Definition is_tree (G : graph) : M bool :=
  n <- number_of_nodes G ;;
  if n =? 0 then raise NetworkXPointlessConcept
  else
    d <- is_directed G ;;
    let is_connected := if d then is_weakly_connected else is_connected in
    m <- number_of_edges G ;;
    if negb (m =? n - 1) then ret false
    else is_connected G.

Definition is_arborescence_body (G : graph) : M bool :=
  t <- is_tree G ;;
  if negb t then ret false
  else
    deg <- in_degree G ;;
    m <- py_max (values deg) ;;
    if m >? 1 then ret false else ret true.

Definition is_arborescence : graph -> M bool :=
  not_implemented_for_undirected is_arborescence_body.

Definition is_branching_body (G : graph) : M bool :=
  t <- is_forest G ;;
  if negb t then ret false
  else
    deg <- in_degree G ;;
    m <- py_max (values deg) ;;
    if m >? 1 then ret false else ret true.

Definition is_branching : graph -> M bool :=
  not_implemented_for_undirected is_branching_body.

(** ** What the queries mean *)

(** Two nodes are adjacent when an edge joins them, in either direction. *)
Definition adj (G : graph) (u w : node) : Prop :=
  In (u, w) (edges G) \/ In (w, u) (edges G).

(** [conn G u w]: a walk leads from [u] to [w] in the underlying undirected
    structure. *)
Inductive conn (G : graph) : node -> node -> Prop :=
| conn_refl : forall u, In u (nodes G) -> conn G u u
| conn_step : forall u v w, conn G u v -> adj G v w -> conn G u w.

(** Connected (weakly connected, for a directed graph): any two nodes are
    joined by a walk. *)
Definition connected (G : graph) : Prop :=
  forall u w, In u (nodes G) -> In w (nodes G) -> conn G u w.

(** A connected component, as a duplicate-free list of its nodes: the nodes
    joined to one of the graph's nodes. *)
Definition is_component (G : graph) (c : list node) : Prop :=
  NoDup c /\ exists r, In r (nodes G) /\ forall v, In v c <-> conn G r v.

(** The component satisfies the tree equation: edges = nodes - 1. *)
Definition tree_count (G : graph) (c : list node) : Prop :=
  Z.of_nat (length (induced_edges G c)) = Z.of_nat (length c) - 1.

Definition max_in_degree_le_1 (G : graph) : Prop :=
  forall v, In v (nodes G) -> in_degree_of G v <= 1.

(** A node list is closed when no edge leaves it. *)
Definition closed (G : graph) (s : list node) : Prop :=
  forall u w, In u s -> adj G u w -> In w s.

(** The boolean the connectivity query answers on a graph with nodes. *)
Definition connectedb (G : graph) : bool :=
  match nodes G with
  | [] => false
  | v :: _ => Nat.eqb (length (plain_bfs G v)) (length (nodes G))
  end.

(** The test of the loop body of [is_forest] on one component view. *)
Definition tree_countb (c : graph) : bool :=
  Z.of_nat (length (edges c)) =? Z.of_nat (length (nodes c)) - 1.

(** The calls of the in-degree test: asking for the in-degrees and taking
    their maximum. *)
Definition degree_call (c : call) : bool :=
  match c with
  | Call_in_degree | Call_max => true
  | _ => false
  end.

(** The code [is_branching] and [is_arborescence] have in common, over the
    test each of them starts with: [is_forest] for the first, [is_tree] for
    the second. *)
Definition test_then_in_degree (test : graph -> M bool) (G : graph) : M bool :=
  t <- test G ;;
  if negb t then ret false
  else
    deg <- in_degree G ;;
    m <- py_max (values deg) ;;
    if m >? 1 then ret false else ret true.

Definition directed_only (test : graph -> M bool) : graph -> M bool :=
  not_implemented_for_undirected (test_then_in_degree test).

(** Scenarios of the specification, used as running examples. *)
Definition path3 : graph := Graph [0; 1; 2]%nat [(0, 1); (1, 2)]%nat.
Definition triangle : graph := Graph [0; 1; 2]%nat [(0, 1); (1, 2); (2, 0)]%nat.
Definition dipath3 : graph := DiGraph [] [(0, 1); (1, 2)]%nat.
Definition fan_in : graph := DiGraph [] [(0, 2); (1, 2)]%nat.
Definition two_arcs : graph := DiGraph [] [(0, 1); (2, 3)]%nat.
Definition null_graph : graph := Graph [] [].
Definition null_digraph : graph := DiGraph [] [].

(** ** Vocabulary of the further properties *)

Definition swap (e : edge) : edge := (snd e, fst e).

(** The graph with every edge turned around, [G.reverse()]. *)
Definition reverse (G : graph) : graph :=
  mkGraph (directed G) (nodes_from G) (map swap (edges_from G)).

(** The nodes and edges of [G] under the directedness flag [d]; with
    [d = false] the underlying undirected multigraph of a directed graph. *)
Definition as_directed (d : bool) (G : graph) : graph :=
  mkGraph d (nodes_from G) (edges_from G).

(** Two graphs with the same underlying undirected structure: the same
    nodes, the same adjacency, and as many edges inside any set of nodes. *)
Definition same_underlying (G G' : graph) : Prop :=
  (forall x, In x (nodes G) <-> In x (nodes G')) /\
  (forall a b, adj G a b <-> adj G' a b) /\
  (forall c, length (induced_edges G c) = length (induced_edges G' c)).

(** The graph on the nodes of [G] with the edges [es]: [G] after
    [remove_edges_from] when [es] is what is left of its edges. *)
Definition with_edges (G : graph) (es : list edge) : graph :=
  mkGraph (directed G) (nodes G) es.

(** An edge lies on an undirected cycle when its end points are still joined
    by a walk once that edge is taken out; a self-loop and each of two
    parallel edges do.  [no_cycle G]: no edge of [G] lies on a cycle. *)
Definition no_cycle (G : graph) : Prop :=
  forall es1 e es2,
    edges G = es1 ++ e :: es2 ->
    ~ conn (with_edges G (es1 ++ es2)) (fst e) (snd e).

(** Counting in the component of a node [r]: whether [x] is reached from
    [r], how many nodes are, and how many edges lie among them. *)
Definition reachb (G : graph) (r x : node) : bool := mem x (plain_bfs G r).

Definition comp_size (G : graph) (r : node) : nat :=
  length (filter (reachb G r) (nodes G)).

Definition comp_edges (G : graph) (r : node) : nat :=
  length (filter (fun e => reachb G r (fst e) && reachb G r (snd e)) (edges G)).

(** The component of [r] has one edge less than it has nodes. *)
Definition tree_at (G : graph) (r : node) : Prop :=
  (comp_edges G r + 1 = comp_size G r)%nat.

(** The component of [r] has at least as many edges as a tree on its nodes. *)
Definition spanned_at (G : graph) (r : node) : Prop :=
  (comp_size G r <= comp_edges G r + 1)%nat.

(** The edges [es] join nodes of [G]. *)
Definition edges_ok (G : graph) (es : list edge) : Prop :=
  forall e, In e es -> In (fst e) (nodes G) /\ In (snd e) (nodes G).

(** A root: a node no edge ends at. *)
Definition is_root (G : graph) (v : node) : Prop := in_degree_of G v = 0.

(** ** Membership, nodes and adjacency *)

Lemma mem_In v l : mem v l = true <-> In v l.
Proof.
  unfold mem. rewrite existsb_exists. split.
  - intros [x [Hx Hv]]. apply Nat.eqb_eq in Hv. now subst.
  - intros H. exists v. split; [exact H | apply Nat.eqb_refl].
Qed.

Lemma mem_false v l : mem v l = false <-> ~ In v l.
Proof.
  rewrite <- mem_In. destruct (mem v l); split; congruence.
Qed.

Lemma NoDup_nodes G : NoDup (nodes G).
Proof. apply NoDup_nodup. Qed.

Lemma edge_ends_in_nodes G u w :
  In (u, w) (edges G) -> In u (nodes G) /\ In w (nodes G).
Proof.
  intros H. unfold nodes.
  assert (Hf : forall x, In x (ends (u, w)) ->
                         In x (nodes_from G ++ flat_map ends (edges_from G))).
  { intros x Hx. apply in_or_app. right. apply in_flat_map.
    exists (u, w). split; assumption. }
  split; apply nodup_In; apply Hf; simpl; auto.
Qed.

Lemma adj_sym G u w : adj G u w -> adj G w u.
Proof. unfold adj. tauto. Qed.

Lemma adj_nodes G u w : adj G u w -> In u (nodes G) /\ In w (nodes G).
Proof.
  intros [H | H]; apply edge_ends_in_nodes in H; tauto.
Qed.

Lemma adjb_adj G u w : adjb G u w = true <-> adj G u w.
Proof.
  unfold adjb, adj, joins. rewrite existsb_exists. split.
  - intros [[a b] [Hin Hj]]. simpl in Hj.
    apply orb_true_iff in Hj.
    destruct Hj as [Hj | Hj]; apply andb_true_iff in Hj; destruct Hj as [H1 H2];
      apply Nat.eqb_eq in H1; apply Nat.eqb_eq in H2; subst; auto.
  - intros [H | H].
    + exists (u, w). split; [exact H |]. simpl. now rewrite !Nat.eqb_refl.
    + exists (w, u). split; [exact H |]. simpl. rewrite !Nat.eqb_refl.
      apply orb_true_r.
Qed.

(** ** Walks *)

Lemma conn_nodes G u w : conn G u w -> In u (nodes G) /\ In w (nodes G).
Proof.
  induction 1 as [u Hu | u v w _ IH Hadj].
  - auto.
  - split; [tauto | apply (adj_nodes _ _ _ Hadj)].
Qed.

Lemma conn_trans G u v w : conn G u v -> conn G v w -> conn G u w.
Proof.
  intros Huv Hvw. induction Hvw as [v Hv | v x w _ IH Hadj].
  - exact Huv.
  - eapply conn_step; [apply IH; exact Huv | exact Hadj].
Qed.

Lemma conn_edge G u w : adj G u w -> conn G u w.
Proof.
  intros H. eapply conn_step; [| exact H].
  apply conn_refl. apply (adj_nodes _ _ _ H).
Qed.

Lemma conn_sym G u w : conn G u w -> conn G w u.
Proof.
  induction 1 as [u Hu | u v w _ IH Hadj].
  - now apply conn_refl.
  - eapply conn_trans; [| exact IH]. apply conn_edge. now apply adj_sym.
Qed.

(** ** The traversal reaches exactly the connected nodes *)

Lemma next_level_In G seen x :
  In x (next_level G seen) <->
  In x (nodes G) /\ ~ In x seen /\ exists w, In w seen /\ adj G w x.
Proof.
  unfold next_level. rewrite filter_In, andb_true_iff, negb_true_iff.
  rewrite mem_false, existsb_exists.
  split.
  - intros [Hn [Hs [w [Hw Ha]]]]. apply adjb_adj in Ha. eauto.
  - intros [Hn [Hs [w [Hw Ha]]]]. apply adjb_adj in Ha. eauto.
Qed.

Lemma next_level_nil_closed G seen : next_level G seen = [] -> closed G seen.
Proof.
  intros Hnil u w Hu Hadj.
  destruct (in_dec Nat.eq_dec w seen) as [Hin | Hout]; [exact Hin | exfalso].
  assert (Hw : In w (next_level G seen)).
  { apply next_level_In. split; [apply (adj_nodes _ _ _ Hadj) |].
    split; [exact Hout | eauto]. }
  rewrite Hnil in Hw. exact Hw.
Qed.

Lemma NoDup_level G seen : NoDup seen -> NoDup (seen ++ next_level G seen).
Proof.
  intros Hnd. apply NoDup_app.
  - exact Hnd.
  - apply NoDup_filter, NoDup_nodes.
  - intros x Hx Hy. apply next_level_In in Hy. tauto.
Qed.

Lemma incl_level G seen :
  incl seen (nodes G) -> incl (seen ++ next_level G seen) (nodes G).
Proof.
  intros Hi x Hx. apply in_app_or in Hx. destruct Hx as [Hx | Hx].
  - now apply Hi.
  - apply next_level_In in Hx. tauto.
Qed.

Lemma bfs_levels_fixed G fuel seen :
  next_level G seen = [] -> bfs_levels G fuel seen = seen.
Proof.
  intros Hnil. induction fuel as [| k IH]; simpl.
  - reflexivity.
  - rewrite Hnil, app_nil_r. exact IH.
Qed.

Lemma bfs_levels_grows G fuel : forall seen x,
  In x seen -> In x (bfs_levels G fuel seen).
Proof.
  induction fuel as [| k IH]; simpl; intros seen x Hx.
  - exact Hx.
  - apply IH. apply in_or_app. now left.
Qed.

Lemma bfs_levels_NoDup G fuel : forall seen,
  NoDup seen -> NoDup (bfs_levels G fuel seen).
Proof.
  induction fuel as [| k IH]; simpl; intros seen Hnd.
  - exact Hnd.
  - apply IH. now apply NoDup_level.
Qed.

Lemma bfs_levels_incl G fuel : forall seen,
  incl seen (nodes G) -> incl (bfs_levels G fuel seen) (nodes G).
Proof.
  induction fuel as [| k IH]; simpl; intros seen Hi.
  - exact Hi.
  - apply IH. now apply incl_level.
Qed.

Lemma bfs_levels_sound G r fuel : forall seen,
  (forall x, In x seen -> conn G r x) ->
  forall x, In x (bfs_levels G fuel seen) -> conn G r x.
Proof.
  induction fuel as [| k IH]; simpl; intros seen Hs x Hx.
  - now apply Hs.
  - apply (IH (seen ++ next_level G seen)); [| exact Hx].
    intros y Hy. apply in_app_or in Hy. destruct Hy as [Hy | Hy].
    + now apply Hs.
    + apply next_level_In in Hy. destruct Hy as [_ [_ [w [Hw Ha]]]].
      eapply conn_step; [apply Hs; exact Hw | exact Ha].
Qed.

(** With as much fuel as there are nodes left to see, the search stops on a
    closed list. *)
Lemma bfs_levels_closed G fuel : forall seen,
  NoDup seen -> incl seen (nodes G) ->
  (length (nodes G) < fuel + length seen)%nat ->
  closed G (bfs_levels G fuel seen).
Proof.
  induction fuel as [| k IH]; intros seen Hnd Hi Hlen.
  - exfalso. pose proof (NoDup_incl_length Hnd Hi). simpl in Hlen. lia.
  - simpl. destruct (next_level G seen) as [| y ys] eqn:Hnl.
    + rewrite app_nil_r, bfs_levels_fixed by exact Hnl.
      now apply next_level_nil_closed.
    + rewrite <- Hnl. apply IH.
      * now apply NoDup_level.
      * now apply incl_level.
      * rewrite length_app, Hnl. simpl. lia.
Qed.

Lemma closed_conn G s r : closed G s -> In r s -> forall x, conn G r x -> In x s.
Proof.
  intros Hc Hr x Hx. induction Hx as [r _ | r v w _ IH Hadj].
  - exact Hr.
  - eapply Hc; [apply IH; exact Hr | exact Hadj].
Qed.

Lemma plain_bfs_spec G r :
  In r (nodes G) -> forall x, In x (plain_bfs G r) <-> conn G r x.
Proof.
  intros Hr x. unfold plain_bfs. split.
  - apply bfs_levels_sound. intros y [<- | []]. now apply conn_refl.
  - apply closed_conn.
    + apply bfs_levels_closed.
      * repeat constructor. intros [].
      * intros y [<- | []]. exact Hr.
      * simpl. lia.
    + apply bfs_levels_grows. now left.
Qed.

Lemma plain_bfs_NoDup G r : NoDup (plain_bfs G r).
Proof.
  apply bfs_levels_NoDup. repeat constructor. intros [].
Qed.

Lemma plain_bfs_incl G r : In r (nodes G) -> incl (plain_bfs G r) (nodes G).
Proof.
  intros Hr. apply bfs_levels_incl. intros y [<- | []]. exact Hr.
Qed.

Lemma plain_bfs_component G r : In r (nodes G) -> is_component G (plain_bfs G r).
Proof.
  intros Hr. split; [apply plain_bfs_NoDup |].
  exists r. split; [exact Hr | now apply plain_bfs_spec].
Qed.

(** ** Connectivity is decided by one traversal *)

Lemma connected_from G r :
  In r (nodes G) -> (connected G <-> incl (nodes G) (plain_bfs G r)).
Proof.
  intros Hr. split.
  - intros Hc x Hx. apply plain_bfs_spec; auto.
  - intros Hi u w Hu Hw.
    apply conn_trans with r.
    + apply conn_sym. apply plain_bfs_spec; auto.
    + apply plain_bfs_spec; auto.
Qed.

Lemma reaches_all_iff G r :
  In r (nodes G) ->
  (Nat.eqb (length (plain_bfs G r)) (length (nodes G)) = true <-> connected G).
Proof.
  intros Hr. rewrite Nat.eqb_eq, (connected_from G r Hr). split.
  - intros Hlen. apply NoDup_length_incl.
    + apply plain_bfs_NoDup.
    + lia.
    + now apply plain_bfs_incl.
  - intros Hi. apply Nat.le_antisymm.
    + apply NoDup_incl_length; [apply plain_bfs_NoDup | now apply plain_bfs_incl].
    + apply NoDup_incl_length; [apply NoDup_nodes | exact Hi].
Qed.

Lemma connectedb_spec G : nodes G <> [] -> (connectedb G = true <-> connected G).
Proof.
  unfold connectedb. intros Hne.
  destruct (nodes G) as [| v rest] eqn:Hn; [congruence |].
  rewrite <- Hn. apply reaches_all_iff. rewrite Hn. now left.
Qed.

Lemma connectivity_connectedb G :
  nodes G <> [] -> connectivity G = ret (connectedb G).
Proof.
  unfold connectivity, connectedb. intros Hne.
  destruct (nodes G); [congruence | reflexivity].
Qed.

(** ** The component decomposition *)

Lemma components_loop_sound G : forall todo seen c,
  incl todo (nodes G) ->
  In c (components_loop G todo seen) ->
  exists r, In r todo /\ c = plain_bfs G r.
Proof.
  induction todo as [| v rest IH]; simpl; intros seen c Hi Hc.
  - destruct Hc.
  - assert (Hrest : incl rest (nodes G)) by (intros x Hx; apply Hi; now right).
    destruct (mem v seen).
    + destruct (IH _ _ Hrest Hc) as [r [Hr Heq]]. eauto.
    + destruct Hc as [<- | Hc]; [eauto |].
      destruct (IH _ _ Hrest Hc) as [r [Hr Heq]]. eauto.
Qed.

Lemma components_loop_covers G : forall todo seen v,
  incl todo (nodes G) -> In v todo ->
  In v seen \/ exists c, In c (components_loop G todo seen) /\ In v c.
Proof.
  induction todo as [| x rest IH]; simpl; intros seen v Hi Hv.
  - destruct Hv.
  - assert (Hrest : incl rest (nodes G)) by (intros y Hy; apply Hi; now right).
    assert (Hx : In x (nodes G)) by (apply Hi; now left).
    destruct (mem x seen) eqn:Hm.
    + destruct Hv as [<- | Hv]; [left; now apply mem_In |].
      now apply IH.
    + destruct Hv as [<- | Hv].
      * right. exists (plain_bfs G x). split; [now left |].
        apply plain_bfs_spec; [exact Hx | now apply conn_refl].
      * destruct (IH (plain_bfs G x ++ seen) v Hrest Hv) as [Hs | [c [Hc Hvc]]].
        -- apply in_app_or in Hs. destruct Hs as [Hs | Hs]; [| now left].
           right. exists (plain_bfs G x). split; [now left | exact Hs].
        -- right. exists c. split; [now right | exact Hvc].
Qed.

Lemma components_loop_done G : forall todo seen,
  (forall x, In x todo -> In x seen) -> components_loop G todo seen = [].
Proof.
  induction todo as [| v rest IH]; simpl; intros seen Hall.
  - reflexivity.
  - rewrite (proj2 (mem_In v seen)) by (apply Hall; now left).
    apply IH. intros x Hx. apply Hall. now right.
Qed.

Lemma component_node_lists_sound G c :
  In c (component_node_lists G) -> is_component G c.
Proof.
  intros Hc. apply components_loop_sound in Hc; [| apply incl_refl].
  destruct Hc as [r [Hr ->]]. now apply plain_bfs_component.
Qed.

(** Two components with a common node have the same nodes. *)
Lemma component_same_nodes G c c' v :
  is_component G c -> is_component G c' -> In v c -> In v c' ->
  forall x, In x c <-> In x c'.
Proof.
  intros [_ [r [_ Hc]]] [_ [r' [_ Hc']]] Hv Hv' x.
  apply Hc in Hv. apply Hc' in Hv'. rewrite Hc, Hc'. split; intros Hx.
  - eapply conn_trans; [exact Hv' |].
    eapply conn_trans; [apply conn_sym; exact Hv | exact Hx].
  - eapply conn_trans; [exact Hv |].
    eapply conn_trans; [apply conn_sym; exact Hv' | exact Hx].
Qed.

Lemma component_node_lists_complete G c' :
  is_component G c' ->
  exists c, In c (component_node_lists G) /\ forall x, In x c <-> In x c'.
Proof.
  intros Hc'. pose proof Hc' as [_ [r [Hr Hmem]]].
  destruct (components_loop_covers G (nodes G) [] r (incl_refl _) Hr)
    as [[] | [c [Hc Hrc]]].
  exists c. split; [exact Hc |].
  apply (component_same_nodes G c c' r).
  - now apply component_node_lists_sound.
  - exact Hc'.
  - exact Hrc.
  - apply Hmem. now apply conn_refl.
Qed.

Lemma connected_one_component G v rest :
  nodes G = v :: rest -> connected G ->
  component_node_lists G = [plain_bfs G v].
Proof.
  intros Hn Hc. unfold component_node_lists. rewrite Hn. simpl.
  f_equal. apply components_loop_done. intros x Hx.
  apply in_or_app. left.
  apply (connected_from G v); [rewrite Hn; now left | exact Hc |].
  rewrite Hn. now right.
Qed.

(** ** Counting in a component view *)

Lemma mem_ext l l' :
  (forall x, In x l <-> In x l') -> forall x, mem x l = mem x l'.
Proof.
  intros H x. destruct (mem x l') eqn:E.
  - apply mem_In, H, mem_In, E.
  - apply mem_false. apply mem_false in E. now rewrite H.
Qed.

Lemma induced_edges_ext G l l' :
  (forall x, In x l <-> In x l') -> induced_edges G l = induced_edges G l'.
Proof.
  intros H. unfold induced_edges. apply filter_ext. intros e.
  now rewrite !(mem_ext l l' H).
Qed.

Lemma NoDup_same_length (l l' : list node) :
  NoDup l -> NoDup l' -> (forall x, In x l <-> In x l') -> length l = length l'.
Proof.
  intros Hl Hl' H. apply Permutation_length.
  apply NoDup_Permutation; assumption.
Qed.

Lemma induced_edges_all G c : incl (nodes G) c -> induced_edges G c = edges G.
Proof.
  intros Hi. unfold induced_edges.
  apply forallb_filter_id. apply forallb_forall. intros [u w] He.
  apply edge_ends_in_nodes in He. destruct He as [Hu Hw]. simpl.
  apply andb_true_iff. split; apply mem_In; apply Hi; assumption.
Qed.

Lemma induced_edges_ends G c e x :
  In e (induced_edges G c) -> In x (ends e) -> In x c.
Proof.
  unfold induced_edges. rewrite filter_In, andb_true_iff, !mem_In.
  intros [_ [H1 H2]] [<- | [<- | []]]; assumption.
Qed.

Lemma nodes_subgraph G c x :
  incl c (nodes G) -> (In x (nodes (subgraph G c)) <-> In x c).
Proof.
  intros Hi. unfold nodes at 1. simpl. rewrite nodup_In, in_app_iff.
  rewrite filter_In, in_flat_map. split.
  - intros [[Hx _] | [e [He Hx]]]; [exact Hx |].
    eapply induced_edges_ends; eassumption.
  - intros Hx. left. split; [exact Hx | apply mem_In, Hi, Hx].
Qed.

Lemma length_nodes_subgraph G c :
  NoDup c -> incl c (nodes G) -> length (nodes (subgraph G c)) = length c.
Proof.
  intros Hnd Hi. apply NoDup_same_length.
  - apply NoDup_nodes.
  - exact Hnd.
  - intros x. now apply nodes_subgraph.
Qed.

Lemma component_incl G c : is_component G c -> incl c (nodes G).
Proof.
  intros [_ [r [_ H]]] x Hx. apply H in Hx. apply (conn_nodes _ _ _ Hx).
Qed.

(** ** Running a computation *)

Lemma outcome_bind {A B} (m : M A) (k : A -> M B) :
  outcome (bind m k) =
  match outcome m with Ok a => outcome (k a) | Raise e => Raise e end.
Proof.
  destruct m as [t [a | e]]; simpl; [| reflexivity].
  destruct (k a); reflexivity.
Qed.

Lemma calls_bind {A B} (m : M A) (k : A -> M B) :
  calls (bind m k) =
  calls m ++ match outcome m with Ok a => calls (k a) | Raise _ => [] end.
Proof.
  destruct m as [t [a | e]]; simpl.
  - destruct (k a); reflexivity.
  - now rewrite app_nil_r.
Qed.

Lemma made_bind {A B} c (m : M A) (k : A -> M B) :
  made c (bind m k) =
  made c m || match outcome m with Ok a => made c (k a) | Raise _ => false end.
Proof.
  unfold made. rewrite calls_bind, existsb_app.
  destruct (outcome m); reflexivity.
Qed.

Lemma outcome_query {A} c (a : A) : outcome (query c a) = Ok a.
Proof. reflexivity. Qed.

Lemma outcome_ret {A} (a : A) : outcome (ret a) = Ok a.
Proof. reflexivity. Qed.

Lemma outcome_raise {A} e : outcome (@raise A e) = Raise e.
Proof. reflexivity. Qed.

Lemma made_query {A} c c' (a : A) : made c (query c' a) = call_eqb c c'.
Proof. unfold made. simpl. apply orb_false_r. Qed.

Lemma made_ret {A} c (a : A) : made c (ret a) = false.
Proof. reflexivity. Qed.

Lemma made_raise {A} c e : made c (@raise A e) = false.
Proof. reflexivity. Qed.

Create Rewrite HintDb run.
#[local] Hint Rewrite @outcome_bind @outcome_query @outcome_ret @outcome_raise
  @made_bind @made_query @made_ret @made_raise : run.

(** Unfold the library queries and push [outcome] and [made] through the
    binds of a computation. *)
Ltac run :=
  unfold number_of_nodes, number_of_edges, is_directed, in_degree,
    is_connected, is_weakly_connected, connected_component_subgraphs,
    weakly_connected_component_subgraphs;
  autorewrite with run; cbn [call_eqb orb negb].

Lemma nonempty_count G :
  nodes G <> [] -> (Z.of_nat (length (nodes G)) =? 0) = false.
Proof.
  intros Hne. apply Z.eqb_neq. destruct (nodes G); [congruence | simpl; lia].
Qed.

Lemma empty_count G :
  nodes G = [] -> (Z.of_nat (length (nodes G)) =? 0) = true.
Proof. intros ->. reflexivity. Qed.

Lemma forest_loop_outcome cs : outcome (forest_loop cs) = Ok (forallb tree_countb cs).
Proof.
  induction cs as [| c rest IH]; cbn [forest_loop forallb].
  - reflexivity.
  - run. unfold tree_countb at 1.
    destruct (Z.of_nat (length (edges c)) =? Z.of_nat (length (nodes c)) - 1);
      cbn [negb andb]; [exact IH | reflexivity].
Qed.

Lemma forest_loop_quiet cs c :
  degree_call c = true -> made c (forest_loop cs) = false.
Proof.
  intros Hc. destruct c; try discriminate Hc;
    (induction cs as [| g rest IH]; cbn [forest_loop];
     [ reflexivity
     | run;
       destruct (Z.of_nat (length (edges g)) =? Z.of_nat (length (nodes g)) - 1);
       cbn [negb]; [exact IH | reflexivity] ]).
Qed.

Lemma is_forest_outcome G :
  nodes G <> [] ->
  outcome (is_forest G) =
  Ok (forallb tree_countb (map (subgraph G) (component_node_lists G))).
Proof.
  intros Hne. unfold is_forest. run. rewrite (nonempty_count G Hne). run.
  destruct (directed G); run; apply forest_loop_outcome.
Qed.

Lemma is_forest_quiet G c :
  degree_call c = true -> made c (is_forest G) = false.
Proof.
  intros Hc. pose proof (fun cs => forest_loop_quiet cs c Hc) as Hloop.
  destruct c; try discriminate Hc;
    (unfold is_forest; run;
     destruct (Z.of_nat (length (nodes G)) =? 0); [reflexivity |]; run;
     destruct (directed G); run; apply Hloop).
Qed.

Lemma is_forest_empty G :
  nodes G = [] -> outcome (is_forest G) = Raise NetworkXPointlessConcept.
Proof.
  intros He. unfold is_forest. run. now rewrite (empty_count G He).
Qed.

Lemma is_tree_outcome G :
  nodes G <> [] ->
  outcome (is_tree G) =
  Ok ((Z.of_nat (length (edges G)) =? Z.of_nat (length (nodes G)) - 1)
      && connectedb G).
Proof.
  intros Hne. unfold is_tree. run. rewrite (nonempty_count G Hne). run.
  destruct (Z.of_nat (length (edges G)) =? Z.of_nat (length (nodes G)) - 1);
    cbn [negb andb]; [| reflexivity].
  destruct (directed G); run; rewrite (connectivity_connectedb G Hne);
    reflexivity.
Qed.

Lemma connectivity_quiet G c : made c (connectivity G) = false.
Proof. unfold connectivity. destruct (nodes G); reflexivity. Qed.

Lemma is_tree_quiet G c :
  degree_call c = true -> made c (is_tree G) = false.
Proof.
  intros Hc.
  destruct c; try discriminate Hc;
    (unfold is_tree; run;
     destruct (Z.of_nat (length (nodes G)) =? 0); [reflexivity |]; run;
     destruct (Z.of_nat (length (edges G)) =? Z.of_nat (length (nodes G)) - 1);
     cbn [negb]; [| reflexivity];
     destruct (directed G); run; apply connectivity_quiet).
Qed.

Lemma is_tree_empty G :
  nodes G = [] -> outcome (is_tree G) = Raise NetworkXPointlessConcept.
Proof.
  intros He. unfold is_tree. run. now rewrite (empty_count G He).
Qed.

(** ** The in-degree test *)

Lemma fold_left_max_le b : forall xs x,
  fold_left Z.max xs x <= b <-> x <= b /\ forall y, In y xs -> y <= b.
Proof.
  induction xs as [| z zs IH]; intros x; simpl.
  - split; [intros H; split; [exact H | intros y []] | tauto].
  - rewrite IH. split.
    + intros [Hm Hall]. split; [lia |].
      intros y [<- | Hy]; [lia | now apply Hall].
    + intros [Hx Hall]. split.
      * apply Z.max_lub; [exact Hx | apply Hall; now left].
      * intros y Hy. apply Hall. now right.
Qed.

Lemma py_max_spec l :
  l <> [] ->
  exists m,
    outcome (py_max l) = Ok m /\
    forall b, m <= b <-> forall y, In y l -> y <= b.
Proof.
  destruct l as [| x xs]; [congruence | intros _].
  exists (fold_left Z.max xs x). split; [reflexivity |].
  intros b. rewrite fold_left_max_le. split.
  - intros [Hx Hall] y [<- | Hy]; auto.
  - intros Hall. split; [apply Hall; now left |].
    intros y Hy. apply Hall. now right.
Qed.

Lemma py_max_calls l : calls (py_max l) = [Call_max].
Proof. destruct l; reflexivity. Qed.

Lemma made_py_max c l : made c (py_max l) = call_eqb c Call_max.
Proof. unfold made. rewrite py_max_calls. simpl. apply orb_false_r. Qed.

Lemma values_in_degree_dict G :
  values (in_degree_dict G) = map (in_degree_of G) (nodes G).
Proof.
  unfold values, in_degree_dict. rewrite map_map. reflexivity.
Qed.

Lemma max_in_degree_defined G :
  nodes G <> [] ->
  exists m, outcome (py_max (values (in_degree_dict G))) = Ok m /\
            (m <= 1 <-> max_in_degree_le_1 G).
Proof.
  intros Hne.
  destruct (py_max_spec (values (in_degree_dict G))) as [m [Hm Hle]].
  - rewrite values_in_degree_dict. destruct (nodes G); [congruence | discriminate].
  - exists m. split; [exact Hm |]. rewrite Hle, values_in_degree_dict.
    unfold max_in_degree_le_1. split.
    + intros H v Hv. apply H. now apply in_map.
    + intros H y Hy. apply in_map_iff in Hy. destruct Hy as [v [<- Hv]]. auto.
Qed.

(** What the two lines after the forest or tree test compute. *)
Lemma in_degree_test G :
  nodes G <> [] ->
  exists b,
    outcome (deg <- in_degree G ;;
             m <- py_max (values deg) ;;
             if m >? 1 then ret false else ret true) = Ok b /\
    (b = true <-> max_in_degree_le_1 G).
Proof.
  intros Hne. destruct (max_in_degree_defined G Hne) as [m [Hm Hle]].
  run. rewrite Hm. run.
  destruct (Z.gtb_spec m 1) as [Hgt | Hngt].
  - exists false. split; [reflexivity |]. rewrite <- Hle.
    split; [discriminate | lia].
  - exists true. split; [reflexivity |]. rewrite <- Hle.
    split; [intros _; exact Hngt | reflexivity].
Qed.

Lemma guard_directed {A} (f : graph -> M A) G :
  directed G = true ->
  outcome (not_implemented_for_undirected f G) = outcome (f G) /\
  forall c, made c (not_implemented_for_undirected f G)
            = call_eqb c Call_is_directed || made c (f G).
Proof.
  intros Hd. unfold not_implemented_for_undirected. split.
  - run. rewrite Hd. reflexivity.
  - intros c. run. rewrite Hd. reflexivity.
Qed.

Lemma guard_undirected {A} (f : graph -> M A) G :
  directed G = false ->
  not_implemented_for_undirected f G
  = ([Call_is_directed], Raise NetworkXNotImplemented).
Proof.
  intros Hd. unfold not_implemented_for_undirected, is_directed.
  rewrite Hd. reflexivity.
Qed.

(** ** A directed-only predicate built on a test

    [is_branching] and [is_arborescence] are the same code over two different
    tests, [is_forest] and [is_tree]; what is proved here for any test that
    behaves as those two do is then used for both. *)
Section DirectedOnly.

Variable test : graph -> M bool.

Hypothesis test_returns :
  forall G, nodes G <> [] -> exists f, outcome (test G) = Ok f.
Hypothesis test_undefined :
  forall G, nodes G = [] -> outcome (test G) = Raise NetworkXPointlessConcept.
Hypothesis test_quiet :
  forall G c, degree_call c = true -> made c (test G) = false.

Lemma in_degree_test_calls G c :
  degree_call c = true ->
  made c (deg <- in_degree G ;;
          m <- py_max (values deg) ;;
          if m >? 1 then ret false else ret true) = true.
Proof.
  intros Hc. destruct c; try discriminate Hc; run.
  - reflexivity.
  - rewrite made_py_max. reflexivity.
Qed.

Lemma body_defined G :
  nodes G <> [] ->
  exists b f,
    outcome (test_then_in_degree test G) = Ok b /\
    outcome (test G) = Ok f /\
    (b = true <-> f = true /\ max_in_degree_le_1 G) /\
    (f = false ->
     b = false /\
     forall c, degree_call c = true ->
               made c (test_then_in_degree test G) = false) /\
    (f = true ->
     forall c, degree_call c = true ->
               made c (test_then_in_degree test G) = true).
Proof.
  intros Hne. destruct (test_returns G Hne) as [f Hf].
  unfold test_then_in_degree. rewrite outcome_bind, Hf.
  destruct f; cbn [negb].
  - destruct (in_degree_test G Hne) as [b [Hb Hiff]].
    exists b, true. split; [exact Hb |]. split; [reflexivity |].
    split; [tauto |]. split; [discriminate |].
    intros _ c Hc. rewrite made_bind, Hf, (test_quiet G c Hc). cbn [negb orb].
    now apply in_degree_test_calls.
  - exists false, false. split; [reflexivity |]. split; [reflexivity |].
    split; [split; [discriminate | intros [H _]; discriminate] |].
    split; [| discriminate].
    intros _. split; [reflexivity |].
    intros c Hc. rewrite made_bind, Hf, (test_quiet G c Hc). reflexivity.
Qed.

Lemma directed_only_undirected G :
  directed G = false ->
  directed_only test G = ([Call_is_directed], Raise NetworkXNotImplemented).
Proof. apply guard_undirected. Qed.

Lemma guard_not_degree_call c :
  degree_call c = true -> call_eqb c Call_is_directed = false.
Proof. destruct c; try discriminate; reflexivity. Qed.

Lemma directed_only_undefined G :
  directed G = true -> nodes G = [] ->
  outcome (directed_only test G) = Raise NetworkXPointlessConcept /\
  forall c, degree_call c = true -> made c (directed_only test G) = false.
Proof.
  intros Hd He. destruct (guard_directed (test_then_in_degree test) G Hd) as [Ho Hm].
  unfold directed_only. rewrite Ho. unfold test_then_in_degree.
  rewrite outcome_bind, (test_undefined G He). split; [reflexivity |].
  intros c Hc.
  rewrite Hm, (guard_not_degree_call c Hc). unfold test_then_in_degree.
  rewrite made_bind, (test_undefined G He), (test_quiet G c Hc). reflexivity.
Qed.

Lemma directed_only_defined G :
  directed G = true -> nodes G <> [] ->
  exists b f,
    outcome (directed_only test G) = Ok b /\ outcome (test G) = Ok f /\
    (b = true <-> f = true /\ max_in_degree_le_1 G) /\
    (f = false ->
     b = false /\
     forall c, degree_call c = true -> made c (directed_only test G) = false) /\
    (f = true ->
     forall c, degree_call c = true -> made c (directed_only test G) = true).
Proof.
  intros Hd Hne. destruct (guard_directed (test_then_in_degree test) G Hd) as [Ho Hm].
  destruct (body_defined G Hne) as [b [f [Hb [Hf [Hiff [Hfalse Htrue]]]]]].
  exists b, f. unfold directed_only. rewrite Ho.
  split; [exact Hb |]. split; [exact Hf |]. split; [exact Hiff |]. split.
  - intros Hff. destruct (Hfalse Hff) as [Hbf Hq]. split; [exact Hbf |].
    intros c Hc. rewrite Hm, (guard_not_degree_call c Hc). now apply Hq.
  - intros Hft c Hc. rewrite Hm, (guard_not_degree_call c Hc). now apply Htrue.
Qed.

(** The in-degrees are asked for, and their maximum taken, only after the
    test answered [true]. *)
Lemma directed_only_degree_call_after_test G c :
  degree_call c = true ->
  made c (directed_only test G) = true -> outcome (test G) = Ok true.
Proof.
  intros Hc Hmade. destruct (directed G) eqn:Hd.
  - destruct (nodes G) as [| v rest] eqn:Hn.
    + destruct (directed_only_undefined G Hd Hn) as [_ Hno].
      rewrite (Hno c Hc) in Hmade. discriminate.
    + destruct (directed_only_defined G Hd) as [b [f [_ [Hf [_ [Hfalse _]]]]]].
      * rewrite Hn. discriminate.
      * destruct f; [exact Hf |].
        destruct (Hfalse eq_refl) as [_ Hno].
        rewrite (Hno c Hc) in Hmade. discriminate.
  - rewrite (directed_only_undirected G Hd) in Hmade.
    destruct c; discriminate.
Qed.

Lemma directed_only_no_ValueError G :
  outcome (directed_only test G) <> Raise ValueError.
Proof.
  destruct (directed G) eqn:Hd.
  - destruct (nodes G) as [| v rest] eqn:Hn.
    + destruct (directed_only_undefined G Hd Hn) as [Ho _]. rewrite Ho. discriminate.
    + destruct (directed_only_defined G Hd) as [b [f [Ho _]]].
      * rewrite Hn. discriminate.
      * rewrite Ho. discriminate.
  - rewrite (directed_only_undirected G Hd). discriminate.
Qed.

End DirectedOnly.

Lemma is_forest_returns G : nodes G <> [] -> exists f, outcome (is_forest G) = Ok f.
Proof. intros Hne. rewrite (is_forest_outcome G Hne). eauto. Qed.

Lemma is_tree_returns G : nodes G <> [] -> exists f, outcome (is_tree G) = Ok f.
Proof. intros Hne. rewrite (is_tree_outcome G Hne). eauto. Qed.

Lemma is_branching_directed_only : is_branching = directed_only is_forest.
Proof. reflexivity. Qed.

Lemma is_arborescence_directed_only : is_arborescence = directed_only is_tree.
Proof. reflexivity. Qed.

(** ** Components and the tree equation *)

Lemma tree_countb_subgraph G c :
  is_component G c -> (tree_countb (subgraph G c) = true <-> tree_count G c).
Proof.
  intros Hc. unfold tree_countb, tree_count. rewrite Z.eqb_eq.
  rewrite (length_nodes_subgraph G c (proj1 Hc) (component_incl G c Hc)).
  reflexivity.
Qed.

Lemma tree_count_same_nodes G c c' :
  is_component G c -> is_component G c' ->
  (forall x, In x c <-> In x c') -> tree_count G c -> tree_count G c'.
Proof.
  intros [Hnd _] [Hnd' _] Hsame. unfold tree_count.
  rewrite (induced_edges_ext G c c' Hsame).
  now rewrite (NoDup_same_length c c' Hnd Hnd' Hsame).
Qed.

Lemma forest_test_spec G :
  forallb tree_countb (map (subgraph G) (component_node_lists G)) = true <->
  forall c, is_component G c -> tree_count G c.
Proof.
  rewrite forallb_forall. split.
  - intros Hall c' Hc'.
    destruct (component_node_lists_complete G c' Hc') as [c [Hin Hsame]].
    pose proof (component_node_lists_sound G c Hin) as Hc.
    apply (tree_count_same_nodes G c c' Hc Hc' Hsame).
    apply tree_countb_subgraph; [exact Hc |].
    apply Hall. now apply in_map.
  - intros Hall g Hg. apply in_map_iff in Hg. destruct Hg as [c [<- Hin]].
    pose proof (component_node_lists_sound G c Hin) as Hc.
    apply tree_countb_subgraph; auto.
Qed.

(** On a connected graph the per-component test is the global test. *)
Lemma connected_forest_test G :
  nodes G <> [] -> connected G ->
  forallb tree_countb (map (subgraph G) (component_node_lists G))
  = (Z.of_nat (length (edges G)) =? Z.of_nat (length (nodes G)) - 1).
Proof.
  intros Hne Hc. destruct (nodes G) as [| v rest] eqn:Hn; [congruence |].
  assert (Hv : In v (nodes G)) by (rewrite Hn; now left).
  rewrite (connected_one_component G v rest Hn Hc). cbn [map forallb].
  rewrite andb_true_r. unfold tree_countb.
  rewrite (length_nodes_subgraph G _ (plain_bfs_NoDup G v) (plain_bfs_incl G v Hv)).
  change (edges (subgraph G (plain_bfs G v))) with (induced_edges G (plain_bfs G v)).
  rewrite induced_edges_all by (apply (connected_from G v Hv), Hc).
  assert (Hlen : length (plain_bfs G v) = length (nodes G)).
  { apply Nat.eqb_eq. now apply reaches_all_iff. }
  now rewrite Hlen, Hn.
Qed.

(** ** The scenarios of the specification *)

Example path3_tree_and_forest :
  outcome (is_tree path3) = Ok true /\ outcome (is_forest path3) = Ok true.
Proof. split; reflexivity. Qed.

Example triangle_neither :
  outcome (is_tree triangle) = Ok false /\ outcome (is_forest triangle) = Ok false.
Proof. split; reflexivity. Qed.

Example dipath3_arborescence_and_branching :
  outcome (is_arborescence dipath3) = Ok true /\
  outcome (is_branching dipath3) = Ok true.
Proof. split; reflexivity. Qed.

Example fan_in_tree_not_arborescence :
  outcome (is_tree fan_in) = Ok true /\
  outcome (is_arborescence fan_in) = Ok false.
Proof. split; reflexivity. Qed.

Example two_arcs_forest_not_tree :
  outcome (is_forest two_arcs) = Ok true /\
  outcome (is_branching two_arcs) = Ok true /\
  outcome (is_tree two_arcs) = Ok false.
Proof. repeat split; reflexivity. Qed.

(** The calls [is_arborescence] makes on a directed graph that is not a
    tree stop at the edge count. *)
Example two_arcs_arborescence_calls :
  is_arborescence two_arcs
  = ([Call_is_directed; Call_number_of_nodes; Call_is_directed;
      Call_number_of_edges], Ok false).
Proof. reflexivity. Qed.

(** ** The properties of the four predicates *)

(** C1. On a graph with at least one node [is_tree] returns a boolean, and
    that boolean is [true] exactly when the graph has [n - 1] edges, [n] being
    its number of nodes, and is connected; for a directed graph connected
    means weakly connected, the direction of the edges being ignored. *)
Theorem is_tree_iff G :
  nodes G <> [] ->
  exists b,
    outcome (is_tree G) = Ok b /\
    (b = true <->
     Z.of_nat (length (edges G)) = Z.of_nat (length (nodes G)) - 1 /\
     connected G).
Proof.
  intros Hne. rewrite (is_tree_outcome G Hne).
  eexists. split; [reflexivity |].
  rewrite andb_true_iff, Z.eqb_eq, (connectedb_spec G Hne). reflexivity.
Qed.

Lemma is_tree_iff_witness :
  nodes path3 <> [] /\
  exists b,
    outcome (is_tree path3) = Ok b /\
    (b = true <->
     Z.of_nat (length (edges path3)) = Z.of_nat (length (nodes path3)) - 1 /\
     connected path3).
Proof.
  split; [vm_compute; discriminate |].
  apply (is_tree_iff path3). vm_compute. discriminate.
Defined.

(** C2. On a graph with at least one node [is_forest] returns a boolean, and
    that boolean is [true] exactly when every connected component of the
    underlying undirected structure (every weakly connected component of a
    directed graph) has as many edges as it has nodes, minus one. *)
Theorem is_forest_iff G :
  nodes G <> [] ->
  exists b,
    outcome (is_forest G) = Ok b /\
    (b = true <-> forall c, is_component G c -> tree_count G c).
Proof.
  intros Hne. rewrite (is_forest_outcome G Hne).
  eexists. split; [reflexivity |]. apply forest_test_spec.
Qed.

Lemma is_forest_iff_witness :
  nodes two_arcs <> [] /\
  exists b,
    outcome (is_forest two_arcs) = Ok b /\
    (b = true <-> forall c, is_component two_arcs c -> tree_count two_arcs c).
Proof.
  split; [vm_compute; discriminate |].
  apply (is_forest_iff two_arcs). vm_compute. discriminate.
Defined.

(** C3, as stated, fails: on the undirected graph without nodes
    [is_branching] and [is_arborescence] end with the unsupported-operation
    error, not with [NetworkXPointlessConcept]. *)
Lemma zero_nodes_undirected_counterexample :
  nodes null_graph = [] /\
  directed null_graph = false /\
  outcome (is_branching null_graph) = Raise NetworkXNotImplemented /\
  outcome (is_arborescence null_graph) = Raise NetworkXNotImplemented /\
  ~ (forall G, nodes G = [] ->
       outcome (is_forest G) = Raise NetworkXPointlessConcept /\
       outcome (is_tree G) = Raise NetworkXPointlessConcept /\
       outcome (is_branching G) = Raise NetworkXPointlessConcept /\
       outcome (is_arborescence G) = Raise NetworkXPointlessConcept).
Proof.
  repeat split.
  intros H. destruct (H null_graph eq_refl) as [_ [_ [Hb _]]]. discriminate Hb.
Qed.

(** C3, amended. On every graph without nodes, directed or not, [is_forest]
    and [is_tree] raise [NetworkXPointlessConcept]; [is_branching] and
    [is_arborescence] raise it on every directed graph without nodes. *)
Theorem zero_nodes_raise G :
  nodes G = [] ->
  outcome (is_forest G) = Raise NetworkXPointlessConcept /\
  outcome (is_tree G) = Raise NetworkXPointlessConcept /\
  (directed G = true ->
   outcome (is_branching G) = Raise NetworkXPointlessConcept /\
   outcome (is_arborescence G) = Raise NetworkXPointlessConcept).
Proof.
  intros He.
  split; [now apply is_forest_empty |].
  split; [now apply is_tree_empty |].
  intros Hd. split.
  - rewrite is_branching_directed_only.
    apply (directed_only_undefined is_forest is_forest_empty
             is_forest_quiet G Hd He).
  - rewrite is_arborescence_directed_only.
    apply (directed_only_undefined is_tree is_tree_empty
             is_tree_quiet G Hd He).
Qed.

Lemma zero_nodes_raise_witness :
  nodes null_digraph = [] /\
  directed null_digraph = true /\
  outcome (is_forest null_digraph) = Raise NetworkXPointlessConcept /\
  outcome (is_tree null_digraph) = Raise NetworkXPointlessConcept /\
  outcome (is_branching null_digraph) = Raise NetworkXPointlessConcept /\
  outcome (is_arborescence null_digraph) = Raise NetworkXPointlessConcept.
Proof.
  split; [reflexivity |]. split; [reflexivity |].
  destruct (zero_nodes_raise null_digraph eq_refl) as [Hf [Ht Hd]].
  destruct (Hd eq_refl) as [Hb Ha].
  repeat split; assumption.
Defined.

(** C4. On a directed graph with at least one node [is_branching] returns a
    boolean, [true] exactly when [is_forest] returns [true] and no node has
    an in-degree above 1; and when [is_forest] returns [false],
    [is_branching] returns [false] and never asks for the in-degrees. *)
Theorem is_branching_iff G :
  directed G = true -> nodes G <> [] ->
  exists b f,
    outcome (is_branching G) = Ok b /\
    outcome (is_forest G) = Ok f /\
    (b = true <-> f = true /\ max_in_degree_le_1 G) /\
    (f = false -> b = false /\ made Call_in_degree (is_branching G) = false).
Proof.
  intros Hd Hne. rewrite is_branching_directed_only.
  destruct (directed_only_defined is_forest is_forest_returns
              is_forest_quiet G Hd Hne)
    as [b [f [Hb [Hf [Hiff [Hfalse _]]]]]].
  exists b, f. split; [exact Hb |]. split; [exact Hf |]. split; [exact Hiff |].
  intros Hff. destruct (Hfalse Hff) as [Hbf Hq].
  split; [exact Hbf | now apply Hq].
Qed.

Lemma is_branching_iff_witness :
  directed two_arcs = true /\ nodes two_arcs <> [] /\
  exists b f,
    outcome (is_branching two_arcs) = Ok b /\
    outcome (is_forest two_arcs) = Ok f /\
    (b = true <-> f = true /\ max_in_degree_le_1 two_arcs) /\
    (f = false ->
     b = false /\ made Call_in_degree (is_branching two_arcs) = false).
Proof.
  split; [reflexivity |]. split; [vm_compute; discriminate |].
  apply (is_branching_iff two_arcs); [reflexivity | vm_compute; discriminate].
Defined.

(** C5. On a directed graph with at least one node [is_arborescence] returns
    a boolean, [true] exactly when [is_tree] returns [true] and no node has
    an in-degree above 1; and when [is_tree] returns [false],
    [is_arborescence] returns [false] and never asks for the in-degrees. *)
Theorem is_arborescence_iff G :
  directed G = true -> nodes G <> [] ->
  exists b t,
    outcome (is_arborescence G) = Ok b /\
    outcome (is_tree G) = Ok t /\
    (b = true <-> t = true /\ max_in_degree_le_1 G) /\
    (t = false -> b = false /\ made Call_in_degree (is_arborescence G) = false).
Proof.
  intros Hd Hne. rewrite is_arborescence_directed_only.
  destruct (directed_only_defined is_tree is_tree_returns
              is_tree_quiet G Hd Hne)
    as [b [t [Hb [Ht [Hiff [Hfalse _]]]]]].
  exists b, t. split; [exact Hb |]. split; [exact Ht |]. split; [exact Hiff |].
  intros Htf. destruct (Hfalse Htf) as [Hbf Hq].
  split; [exact Hbf | now apply Hq].
Qed.

Lemma is_arborescence_iff_witness :
  directed fan_in = true /\ nodes fan_in <> [] /\
  exists b t,
    outcome (is_arborescence fan_in) = Ok b /\
    outcome (is_tree fan_in) = Ok t /\
    (b = true <-> t = true /\ max_in_degree_le_1 fan_in) /\
    (t = false ->
     b = false /\ made Call_in_degree (is_arborescence fan_in) = false).
Proof.
  split; [reflexivity |]. split; [vm_compute; discriminate |].
  apply (is_arborescence_iff fan_in); [reflexivity | vm_compute; discriminate].
Defined.

(** C6. On an undirected graph, whatever its number of nodes, [is_branching]
    and [is_arborescence] do not return a boolean: both end with the
    unsupported-operation error. *)
Theorem undirected_not_implemented G :
  directed G = false ->
  outcome (is_branching G) = Raise NetworkXNotImplemented /\
  outcome (is_arborescence G) = Raise NetworkXNotImplemented /\
  (forall b, outcome (is_branching G) <> Ok b) /\
  (forall b, outcome (is_arborescence G) <> Ok b).
Proof.
  intros Hd.
  unfold is_branching, is_arborescence. rewrite !(guard_undirected _ G Hd).
  repeat split; discriminate.
Qed.

Lemma undirected_not_implemented_witness :
  directed path3 = false /\
  outcome (is_branching path3) = Raise NetworkXNotImplemented /\
  outcome (is_arborescence path3) = Raise NetworkXNotImplemented /\
  (forall b, outcome (is_branching path3) <> Ok b) /\
  (forall b, outcome (is_arborescence path3) <> Ok b).
Proof.
  split; [reflexivity |].
  apply (undirected_not_implemented path3). reflexivity.
Defined.

(** C7. On a graph with at least one node, if [is_tree] returns [true] then
    [is_forest] returns [true]. *)
Theorem is_tree_is_forest G :
  nodes G <> [] ->
  outcome (is_tree G) = Ok true -> outcome (is_forest G) = Ok true.
Proof.
  intros Hne. rewrite (is_tree_outcome G Hne), (is_forest_outcome G Hne).
  intros Ht. injection Ht as Ht. apply andb_true_iff in Ht.
  destruct Ht as [Hcount Hconn].
  apply (connectedb_spec G Hne) in Hconn.
  now rewrite (connected_forest_test G Hne Hconn), Hcount.
Qed.

Lemma is_tree_is_forest_witness :
  nodes fan_in <> [] /\
  outcome (is_tree fan_in) = Ok true /\
  outcome (is_forest fan_in) = Ok true.
Proof.
  split; [vm_compute; discriminate |]. split; [reflexivity |].
  apply (is_tree_is_forest fan_in); [vm_compute; discriminate | reflexivity].
Defined.

(** C8. On a connected graph with at least one node (weakly connected when
    directed) [is_tree] and [is_forest] return the same boolean, the one of
    the edge count test [edges = nodes - 1]. *)
Theorem connected_is_tree_eq_is_forest G :
  nodes G <> [] -> connected G ->
  exists b,
    outcome (is_tree G) = Ok b /\ outcome (is_forest G) = Ok b /\
    b = (Z.of_nat (length (edges G)) =? Z.of_nat (length (nodes G)) - 1).
Proof.
  intros Hne Hc.
  rewrite (is_tree_outcome G Hne), (is_forest_outcome G Hne).
  rewrite (connected_forest_test G Hne Hc).
  rewrite (proj2 (connectedb_spec G Hne) Hc), andb_true_r.
  eexists. repeat split.
Qed.

Lemma connected_is_tree_eq_is_forest_witness :
  nodes triangle <> [] /\ connected triangle /\
  exists b,
    outcome (is_tree triangle) = Ok b /\ outcome (is_forest triangle) = Ok b /\
    b = (Z.of_nat (length (edges triangle)) =?
         Z.of_nat (length (nodes triangle)) - 1).
Proof.
  assert (Hne : nodes triangle <> []) by (vm_compute; discriminate).
  assert (Hc : connected triangle)
    by (apply (connectedb_spec triangle Hne); vm_compute; reflexivity).
  split; [exact Hne |]. split; [exact Hc |].
  apply (connected_is_tree_eq_is_forest triangle Hne Hc).
Defined.

(** C9. In [is_branching] and [is_arborescence] the maximum of the in-degrees
    is taken only after [is_forest], respectively [is_tree], returned [true];
    a graph on which one of these returns [true] has a node, so [max] is
    taken over a sequence that is not empty and returns a value; neither
    predicate ends with the [ValueError] of [max]. *)
Theorem max_in_degree_never_fails G :
  (made Call_max (is_branching G) = true -> outcome (is_forest G) = Ok true) /\
  (made Call_max (is_arborescence G) = true -> outcome (is_tree G) = Ok true) /\
  (outcome (is_forest G) = Ok true \/ outcome (is_tree G) = Ok true ->
   nodes G <> [] /\
   values (in_degree_dict G) <> [] /\
   exists m, outcome (py_max (values (in_degree_dict G))) = Ok m) /\
  outcome (is_branching G) <> Raise ValueError /\
  outcome (is_arborescence G) <> Raise ValueError.
Proof.
  split; [| split; [| split; [| split]]].
  - rewrite is_branching_directed_only.
    apply (directed_only_degree_call_after_test is_forest is_forest_returns
             is_forest_empty is_forest_quiet). reflexivity.
  - rewrite is_arborescence_directed_only.
    apply (directed_only_degree_call_after_test is_tree is_tree_returns
             is_tree_empty is_tree_quiet). reflexivity.
  - intros Htrue.
    assert (Hne : nodes G <> []).
    { intros He. destruct Htrue as [H | H].
      - rewrite (is_forest_empty G He) in H. discriminate.
      - rewrite (is_tree_empty G He) in H. discriminate. }
    split; [exact Hne |]. split.
    + rewrite values_in_degree_dict. destruct (nodes G); [congruence | discriminate].
    + destruct (max_in_degree_defined G Hne) as [m [Hm _]]. eauto.
  - rewrite is_branching_directed_only.
    apply (directed_only_no_ValueError is_forest is_forest_returns
             is_forest_empty is_forest_quiet).
  - rewrite is_arborescence_directed_only.
    apply (directed_only_no_ValueError is_tree is_tree_returns
             is_tree_empty is_tree_quiet).
Qed.

Lemma max_in_degree_never_fails_witness :
  made Call_max (is_branching dipath3) = true /\
  made Call_max (is_arborescence dipath3) = true /\
  outcome (is_forest dipath3) = Ok true /\
  outcome (is_tree dipath3) = Ok true /\
  nodes dipath3 <> [] /\
  values (in_degree_dict dipath3) <> [] /\
  (exists m, outcome (py_max (values (in_degree_dict dipath3))) = Ok m) /\
  outcome (is_branching dipath3) <> Raise ValueError /\
  outcome (is_arborescence dipath3) <> Raise ValueError.
Proof.
  destruct (max_in_degree_never_fails dipath3) as [Hb [Ha [Hmax [Hnb Hna]]]].
  assert (Hmb : made Call_max (is_branching dipath3) = true) by reflexivity.
  assert (Hma : made Call_max (is_arborescence dipath3) = true) by reflexivity.
  pose proof (Hb Hmb) as Hf.
  destruct (Hmax (or_introl Hf)) as [Hne [Hv Hm]].
  repeat split; auto.
Defined.

(** C10. On an undirected graph without nodes [is_branching] and
    [is_arborescence] end with the unsupported-operation error, not with
    [NetworkXPointlessConcept]: the directedness guard fails before the
    number of nodes is asked for. *)
Theorem undirected_guard_first G :
  directed G = false -> nodes G = [] ->
  outcome (is_branching G) = Raise NetworkXNotImplemented /\
  outcome (is_arborescence G) = Raise NetworkXNotImplemented /\
  outcome (is_branching G) <> Raise NetworkXPointlessConcept /\
  outcome (is_arborescence G) <> Raise NetworkXPointlessConcept /\
  made Call_number_of_nodes (is_branching G) = false /\
  made Call_number_of_nodes (is_arborescence G) = false.
Proof.
  intros Hd _.
  unfold is_branching, is_arborescence. rewrite !(guard_undirected _ G Hd).
  repeat split; discriminate.
Qed.

Lemma undirected_guard_first_witness :
  directed null_graph = false /\ nodes null_graph = [] /\
  outcome (is_branching null_graph) = Raise NetworkXNotImplemented /\
  outcome (is_arborescence null_graph) = Raise NetworkXNotImplemented /\
  outcome (is_branching null_graph) <> Raise NetworkXPointlessConcept /\
  outcome (is_arborescence null_graph) <> Raise NetworkXPointlessConcept /\
  made Call_number_of_nodes (is_branching null_graph) = false /\
  made Call_number_of_nodes (is_arborescence null_graph) = false.
Proof.
  split; [reflexivity |]. split; [reflexivity |].
  apply (undirected_guard_first null_graph); reflexivity.
Defined.

(** ** Further properties: how the predicates relate and where they stop *)

Lemma tree_then_forest G :
  nodes G <> [] ->
  outcome (is_tree G) = Ok true -> outcome (is_forest G) = Ok true.
Proof.
  intros Hne. rewrite (is_tree_outcome G Hne), (is_forest_outcome G Hne).
  intros Ht. injection Ht as Ht. apply andb_true_iff in Ht.
  destruct Ht as [Hcount Hconn]. apply (connectedb_spec G Hne) in Hconn.
  rewrite (connected_forest_test G Hne Hconn). now rewrite Hcount.
Qed.

(** X1. Whenever [is_arborescence] returns [true], [is_branching] returns
    [true] as well. *)
Theorem is_arborescence_is_branching G :
  outcome (is_arborescence G) = Ok true -> outcome (is_branching G) = Ok true.
Proof.
  rewrite is_arborescence_directed_only, is_branching_directed_only.
  intros Ha. destruct (directed G) eqn:Hd.
  - destruct (nodes G) as [| v rest] eqn:Hn.
    + destruct (directed_only_undefined is_tree is_tree_empty is_tree_quiet
                  G Hd Hn) as [Ho _].
      rewrite Ho in Ha. discriminate.
    + assert (Hne : nodes G <> []) by (rewrite Hn; discriminate).
      destruct (directed_only_defined is_tree is_tree_returns is_tree_quiet
                  G Hd Hne) as [b [t [Hb [Ht [Hiff _]]]]].
      destruct (directed_only_defined is_forest is_forest_returns
                  is_forest_quiet G Hd Hne) as [b' [f [Hb' [Hf [Hiff' _]]]]].
      rewrite Hb in Ha. injection Ha as ->.
      destruct (proj1 Hiff eq_refl) as [-> Hdeg].
      pose proof (tree_then_forest G Hne Ht) as Hft.
      rewrite Hf in Hft. injection Hft as ->.
      rewrite Hb'. f_equal. apply Hiff'. split; [reflexivity | exact Hdeg].
  - rewrite (directed_only_undirected is_tree G Hd) in Ha. discriminate.
Qed.

Lemma is_arborescence_is_branching_witness :
  outcome (is_arborescence dipath3) = Ok true /\
  outcome (is_branching dipath3) = Ok true.
Proof.
  split; [reflexivity |].
  apply (is_arborescence_is_branching dipath3). reflexivity.
Defined.

(** X2. When the number of edges is not the number of nodes minus one,
    [is_tree] answers [false] after three queries (node count, directedness,
    edge count): the connectivity of the graph is never asked for. *)
Theorem is_tree_short_circuit G :
  nodes G <> [] ->
  Z.of_nat (length (edges G)) <> Z.of_nat (length (nodes G)) - 1 ->
  is_tree G
  = ([Call_number_of_nodes; Call_is_directed; Call_number_of_edges], Ok false).
Proof.
  intros Hne Hcount. apply Z.eqb_neq in Hcount.
  unfold is_tree, number_of_nodes, number_of_edges, is_directed.
  cbn [bind query]. rewrite (nonempty_count G Hne). cbn [bind query].
  rewrite Hcount. reflexivity.
Qed.

Lemma is_tree_short_circuit_witness :
  nodes triangle <> [] /\
  Z.of_nat (length (edges triangle)) <> Z.of_nat (length (nodes triangle)) - 1 /\
  is_tree triangle
  = ([Call_number_of_nodes; Call_is_directed; Call_number_of_edges], Ok false).
Proof.
  assert (Hne : nodes triangle <> []) by (vm_compute; discriminate).
  assert (Hc : Z.of_nat (length (edges triangle))
               <> Z.of_nat (length (nodes triangle)) - 1)
    by (vm_compute; discriminate).
  split; [exact Hne |]. split; [exact Hc |].
  apply (is_tree_short_circuit triangle Hne Hc).
Defined.

(** X3. The loop of [is_forest] stops at the first component that fails the
    count: whatever components come after it, the calls made and the answer
    [false] are those of the loop that ends with the failing component. *)
Theorem forest_loop_early_return pre c post :
  tree_countb c = false ->
  forest_loop (pre ++ c :: post) = forest_loop (pre ++ [c]) /\
  outcome (forest_loop (pre ++ c :: post)) = Ok false.
Proof.
  intros Hc. split.
  - induction pre as [| p pre IH]; cbn [app forest_loop].
    + unfold number_of_edges, number_of_nodes. cbn [bind query].
      unfold tree_countb in Hc. rewrite Hc. reflexivity.
    + unfold number_of_edges, number_of_nodes. cbn [bind query].
      destruct (Z.of_nat (length (edges p)) =? Z.of_nat (length (nodes p)) - 1);
        cbn [negb]; [now rewrite IH | reflexivity].
  - rewrite forest_loop_outcome, forallb_app. cbn [forallb].
    rewrite Hc. now rewrite andb_false_r.
Qed.

Lemma forest_loop_early_return_witness :
  tree_countb triangle = false /\
  forest_loop ([path3] ++ triangle :: [dipath3; fan_in])
  = forest_loop ([path3] ++ [triangle]) /\
  outcome (forest_loop ([path3] ++ triangle :: [dipath3; fan_in])) = Ok false.
Proof.
  split; [reflexivity |].
  apply (forest_loop_early_return [path3] triangle [dipath3; fan_in]).
  reflexivity.
Defined.

(** ** Further properties: the direction of the edges is ignored *)

Lemma conn_ext G G' :
  (forall x, In x (nodes G) -> In x (nodes G')) ->
  (forall a b, adj G a b -> adj G' a b) ->
  forall u w, conn G u w -> conn G' u w.
Proof.
  intros Hn Ha u w H. induction H as [u Hu | u v w _ IH Hadj].
  - apply conn_refl. now apply Hn.
  - eapply conn_step; [exact IH | now apply Ha].
Qed.

Lemma same_underlying_sym G G' : same_underlying G G' -> same_underlying G' G.
Proof.
  intros [Hn [Ha Hc]]. split; [| split].
  - intros x. symmetry. apply Hn.
  - intros a b. symmetry. apply Ha.
  - intros c. symmetry. apply Hc.
Qed.

Lemma same_underlying_conn G G' u w :
  same_underlying G G' -> conn G u w -> conn G' u w.
Proof.
  intros [Hn [Ha _]]. apply conn_ext.
  - intros x. apply Hn.
  - intros a b. apply Ha.
Qed.

Lemma same_underlying_empty G G' :
  same_underlying G G' -> nodes G = [] -> nodes G' = [].
Proof.
  intros [Hn _] He. destruct (nodes G') as [| x rest] eqn:E; [reflexivity |].
  assert (Hx : In x (nodes G)) by (apply Hn; now left).
  rewrite He in Hx. destruct Hx.
Qed.

Lemma same_underlying_counts G G' :
  same_underlying G G' ->
  length (nodes G) = length (nodes G') /\ length (edges G) = length (edges G').
Proof.
  intros [Hn [_ Hc]]. split.
  - apply NoDup_same_length; [apply NoDup_nodes | apply NoDup_nodes | exact Hn].
  - rewrite <- (induced_edges_all G (nodes G)) by apply incl_refl.
    rewrite <- (induced_edges_all G' (nodes G)) by (intros x; apply Hn).
    apply Hc.
Qed.

Lemma same_underlying_component G G' c :
  same_underlying G G' -> is_component G c -> is_component G' c.
Proof.
  intros Hs [Hnd [r [Hr Hc]]]. split; [exact Hnd |].
  exists r. split; [apply (proj1 Hs), Hr |].
  intros v. rewrite Hc. split.
  - now apply same_underlying_conn.
  - apply same_underlying_conn. now apply same_underlying_sym.
Qed.

Lemma same_underlying_forest_prop G G' :
  same_underlying G G' ->
  (forall c, is_component G c -> tree_count G c) ->
  forall c, is_component G' c -> tree_count G' c.
Proof.
  intros Hs H c Hc. unfold tree_count.
  rewrite <- (proj2 (proj2 Hs) c). apply H.
  apply (same_underlying_component G' G); [now apply same_underlying_sym | exact Hc].
Qed.

Lemma same_underlying_connected G G' :
  same_underlying G G' -> connected G -> connected G'.
Proof.
  intros Hs Hc u w Hu Hw. apply (same_underlying_conn G G'); [exact Hs |].
  apply Hc; apply (proj1 Hs); assumption.
Qed.

Lemma same_underlying_is_forest G G' :
  same_underlying G G' -> outcome (is_forest G) = outcome (is_forest G').
Proof.
  intros Hs. destruct (nodes G) as [| v rest] eqn:Hn.
  - rewrite (is_forest_empty G Hn).
    now rewrite (is_forest_empty G' (same_underlying_empty G G' Hs Hn)).
  - assert (Hne : nodes G <> []) by (rewrite Hn; discriminate).
    assert (Hne' : nodes G' <> []).
    { intros He. apply Hne.
      apply (same_underlying_empty G' G); [now apply same_underlying_sym | exact He]. }
    rewrite (is_forest_outcome G Hne), (is_forest_outcome G' Hne'). f_equal.
    apply eq_iff_eq_true. rewrite !forest_test_spec. split.
    + now apply same_underlying_forest_prop.
    + apply same_underlying_forest_prop. now apply same_underlying_sym.
Qed.

Lemma same_underlying_is_tree G G' :
  same_underlying G G' -> outcome (is_tree G) = outcome (is_tree G').
Proof.
  intros Hs. destruct (nodes G) as [| v rest] eqn:Hn.
  - rewrite (is_tree_empty G Hn).
    now rewrite (is_tree_empty G' (same_underlying_empty G G' Hs Hn)).
  - assert (Hne : nodes G <> []) by (rewrite Hn; discriminate).
    assert (Hne' : nodes G' <> []).
    { intros He. apply Hne.
      apply (same_underlying_empty G' G); [now apply same_underlying_sym | exact He]. }
    rewrite (is_tree_outcome G Hne), (is_tree_outcome G' Hne').
    destruct (same_underlying_counts G G' Hs) as [Hcn Hce].
    rewrite Hcn, Hce. f_equal. f_equal.
    apply eq_iff_eq_true.
    rewrite (connectedb_spec G Hne), (connectedb_spec G' Hne'). split.
    + now apply same_underlying_connected.
    + apply same_underlying_connected. now apply same_underlying_sym.
Qed.

Lemma as_directed_same_underlying d G : same_underlying (as_directed d G) G.
Proof.
  split; [| split]; intros; reflexivity.
Qed.

Lemma swap_involutive e : swap (swap e) = e.
Proof. destruct e. reflexivity. Qed.

Lemma In_edges_reverse G a b : In (a, b) (edges (reverse G)) <-> In (b, a) (edges G).
Proof.
  unfold reverse, edges. simpl. rewrite in_map_iff. split.
  - intros [[x y] [Heq Hin]]. unfold swap in Heq. simpl in Heq.
    injection Heq as <- <-. exact Hin.
  - intros Hin. exists (b, a). split; [reflexivity | exact Hin].
Qed.

Lemma length_filter_map {A B} (f : A -> B) (p : B -> bool) l :
  length (filter p (map f l)) = length (filter (fun x => p (f x)) l).
Proof.
  induction l as [| x l IH]; simpl; [reflexivity |].
  destruct (p (f x)); simpl; now rewrite IH.
Qed.

Lemma reverse_same_underlying G : same_underlying (reverse G) G.
Proof.
  assert (Hadj : forall a b, adj (reverse G) a b <-> adj G a b).
  { intros a b. unfold adj. rewrite !In_edges_reverse. tauto. }
  split; [| split].
  - intros x. unfold nodes, reverse. simpl. rewrite !nodup_In, !in_app_iff.
    rewrite !in_flat_map. split.
    + intros [H | [e [He Hx]]]; [now left | right].
      apply in_map_iff in He. destruct He as [e0 [<- He0]].
      exists e0. split; [exact He0 |].
      destruct e0 as [a b]. simpl in *. tauto.
    + intros [H | [e [He Hx]]]; [now left | right].
      exists (swap e). split; [now apply in_map |].
      destruct e as [a b]. simpl in *. tauto.
  - exact Hadj.
  - intros c. unfold induced_edges, reverse, edges. simpl.
    rewrite length_filter_map. f_equal. apply filter_ext.
    intros [a b]. simpl. apply andb_comm.
Qed.

(** X4. On a directed graph [is_forest] and [is_tree] answer, or fail, as on
    the underlying undirected multigraph, the same nodes and edges without
    the directions; more generally the directedness flag does not change
    what they return. *)
Theorem underlying_graph_decides d G :
  outcome (is_forest (as_directed d G)) = outcome (is_forest G) /\
  outcome (is_tree (as_directed d G)) = outcome (is_tree G).
Proof.
  split.
  - apply same_underlying_is_forest, as_directed_same_underlying.
  - apply same_underlying_is_tree, as_directed_same_underlying.
Qed.

(** X5. Turning every edge around changes neither what [is_forest] returns
    nor what [is_tree] returns. *)
Theorem reverse_decides_the_same G :
  outcome (is_forest (reverse G)) = outcome (is_forest G) /\
  outcome (is_tree (reverse G)) = outcome (is_tree G).
Proof.
  split.
  - apply same_underlying_is_forest, reverse_same_underlying.
  - apply same_underlying_is_tree, reverse_same_underlying.
Qed.

(** ** Further properties: graphs without edges *)

Lemma conn_no_edges G u w : edges G = [] -> conn G u w -> u = w.
Proof.
  intros He H. induction H as [u _ | u v w _ IH Hadj]; [reflexivity |].
  unfold adj in Hadj. rewrite He in Hadj. destruct Hadj as [[] | []].
Qed.

Lemma length_singleton (c : list node) r :
  NoDup c -> (forall v, In v c <-> v = r) -> length c = 1%nat.
Proof.
  intros Hnd H. apply (NoDup_same_length c [r]).
  - exact Hnd.
  - repeat constructor. intros [].
  - intros x. rewrite H. simpl. split; [intros ->; now left | intros [-> | []]; reflexivity].
Qed.

(** X6. A graph with nodes and no edge is a forest, each node being a
    component of its own, and it is a tree exactly when it has one node. *)
Theorem no_edges_forest_and_tree G :
  edges G = [] -> nodes G <> [] ->
  outcome (is_forest G) = Ok true /\
  outcome (is_tree G) = Ok (Nat.eqb (length (nodes G)) 1).
Proof.
  intros He Hne. split.
  - rewrite (is_forest_outcome G Hne). f_equal. apply forest_test_spec.
    intros c [Hnd [r [Hr Hc]]]. unfold tree_count, induced_edges.
    rewrite He. simpl.
    rewrite (length_singleton c r Hnd); [reflexivity |].
    intros v. rewrite Hc. split.
    + intros H. symmetry. now apply (conn_no_edges G r v).
    + intros ->. now apply conn_refl.
  - rewrite (is_tree_outcome G Hne), He. f_equal.
    destruct (nodes G) as [| v [| v' rest]] eqn:Hn; [congruence | |].
    + simpl. unfold connectedb. rewrite Hn.
      apply Nat.eqb_eq. rewrite <- Hn. apply Nat.eqb_eq.
      apply reaches_all_iff; [rewrite Hn; now left |].
      intros u w Hu Hw. rewrite Hn in Hu, Hw.
      destruct Hu as [<- | []]. destruct Hw as [<- | []].
      apply conn_refl. rewrite Hn. now left.
    + assert (Hf : (Z.of_nat (length (@nil edge))
                    =? Z.of_nat (length (v :: v' :: rest)) - 1) = false).
      { apply Z.eqb_neq. simpl length. lia. }
      rewrite Hf. reflexivity.
Qed.

Lemma no_edges_forest_and_tree_witness :
  edges (Graph [4; 7]%nat []) = [] /\ nodes (Graph [4; 7]%nat []) <> [] /\
  outcome (is_forest (Graph [4; 7]%nat [])) = Ok true /\
  outcome (is_tree (Graph [4; 7]%nat []))
  = Ok (Nat.eqb (length (nodes (Graph [4; 7]%nat []))) 1).
Proof.
  split; [reflexivity |]. split; [vm_compute; discriminate |].
  apply (no_edges_forest_and_tree (Graph [4; 7]%nat []));
    [reflexivity | vm_compute; discriminate].
Defined.

(** ** Further properties: the root of an arborescence *)

Lemma list_sum_map_add {A} (f g : A -> nat) l :
  list_sum (map (fun x => (f x + g x)%nat) l)
  = (list_sum (map f l) + list_sum (map g l))%nat.
Proof.
  induction l as [| x l IH]; simpl; [reflexivity | rewrite IH; lia].
Qed.

Lemma list_sum_indicator (a : node) ns :
  NoDup ns -> In a ns ->
  list_sum (map (fun v => if Nat.eqb a v then 1%nat else 0%nat) ns) = 1%nat.
Proof.
  induction ns as [| x ns IH]; intros Hnd Hin; [destruct Hin |].
  inversion Hnd as [| ? ? Hx Hnd']; subst. simpl.
  destruct (Nat.eqb_spec a x) as [-> | Hneq].
  - assert (Hz : list_sum (map (fun v => if Nat.eqb x v then 1%nat else 0%nat) ns)
                 = 0%nat).
    { clear IH Hnd Hin Hnd'. induction ns as [| y ns IH]; [reflexivity |].
      simpl. destruct (Nat.eqb_spec x y) as [-> | _].
      - exfalso. apply Hx. now left.
      - apply IH. intros H. apply Hx. now right. }
    rewrite Hz. reflexivity.
  - destruct Hin as [-> | Hin]; [congruence |]. now rewrite IH.
Qed.

Lemma length_filter_cons {A} (p : A -> bool) x l :
  length (filter p (x :: l))
  = ((if p x then 1 else 0) + length (filter p l))%nat.
Proof. simpl. destruct (p x); reflexivity. Qed.

(** Every edge ends at one node: the in-degrees add up to the number of
    edges. *)
Lemma sum_in_degrees ns : forall es : list edge,
  NoDup ns -> (forall e, In e es -> In (snd e) ns) ->
  list_sum (map (fun v => length (filter (fun e => Nat.eqb (snd e) v) es)) ns)
  = length es.
Proof.
  induction es as [| e es IH]; intros Hnd Hin.
  - simpl. clear. induction ns; simpl; auto.
  - rewrite (map_ext _ (fun v => ((if Nat.eqb (snd e) v then 1 else 0)
                 + length (filter (fun e => Nat.eqb (snd e) v) es))%nat)).
    + rewrite list_sum_map_add, list_sum_indicator, IH; auto.
      * intros e' He'. apply Hin. now right.
      * apply Hin. now left.
    + intros v. rewrite length_filter_cons. reflexivity.
Qed.

Lemma list_sum_le_length (f : node -> nat) ns :
  (forall v, In v ns -> (f v <= 1)%nat) ->
  (list_sum (map f ns) <= length ns)%nat.
Proof.
  induction ns as [| x ns IH]; intros H; simpl; [lia |].
  pose proof (H x (or_introl eq_refl)).
  assert ((list_sum (map f ns) <= length ns)%nat)
    by (apply IH; intros v Hv; apply H; now right).
  lia.
Qed.

Lemma all_ones (f : node -> nat) ns :
  (forall v, In v ns -> (f v <= 1)%nat) ->
  list_sum (map f ns) = length ns ->
  forall v, In v ns -> f v = 1%nat.
Proof.
  induction ns as [| x ns IH]; intros H Hsum v Hv; [destruct Hv |].
  simpl in Hsum.
  pose proof (H x (or_introl eq_refl)) as Hx.
  assert (Hrest : forall v, In v ns -> (f v <= 1)%nat)
    by (intros y Hy; apply H; now right).
  pose proof (list_sum_le_length f ns Hrest) as Hle.
  destruct Hv as [<- | Hv]; [lia |].
  apply IH; [exact Hrest | lia | exact Hv].
Qed.

Lemma one_zero (f : node -> nat) ns :
  NoDup ns ->
  (forall v, In v ns -> (f v <= 1)%nat) ->
  (list_sum (map f ns) + 1 = length ns)%nat ->
  exists r, In r ns /\ f r = 0%nat /\
            forall v, In v ns -> v <> r -> f v = 1%nat.
Proof.
  induction ns as [| x ns IH]; intros Hnd H Hsum; [simpl in Hsum; lia |].
  inversion Hnd as [| ? ? Hx Hnd']; subst. simpl in Hsum.
  pose proof (H x (or_introl eq_refl)) as Hfx.
  assert (Hrest : forall v, In v ns -> (f v <= 1)%nat)
    by (intros y Hy; apply H; now right).
  destruct (f x) as [| k] eqn:Ef.
  - exists x. split; [now left |]. split; [exact Ef |].
    intros v [<- | Hv] Hneq; [congruence |].
    apply (all_ones f ns Hrest); [lia | exact Hv].
  - destruct (IH Hnd' Hrest) as [r [Hr [Hfr Hothers]]]; [lia |].
    exists r. split; [now right |]. split; [exact Hfr |].
    intros v [<- | Hv] Hneq; [lia | now apply Hothers].
Qed.

(** X7. An arborescence has exactly one root: when [is_arborescence] returns
    [true], one node has in-degree 0 and every other node has in-degree 1. *)
Theorem arborescence_unique_root G :
  outcome (is_arborescence G) = Ok true ->
  exists r,
    In r (nodes G) /\ is_root G r /\
    forall v, In v (nodes G) -> v <> r -> in_degree_of G v = 1.
Proof.
  rewrite is_arborescence_directed_only. intros Ha.
  destruct (directed G) eqn:Hd.
  2: { rewrite (directed_only_undirected is_tree G Hd) in Ha. discriminate. }
  destruct (nodes G) as [| v0 rest] eqn:Hn.
  { destruct (directed_only_undefined is_tree is_tree_empty is_tree_quiet
                G Hd Hn) as [Ho _].
    rewrite Ho in Ha. discriminate. }
  assert (Hne : nodes G <> []) by (rewrite Hn; discriminate).
  rewrite <- Hn.
  destruct (directed_only_defined is_tree is_tree_returns is_tree_quiet
              G Hd Hne) as [b [t [Hb [Ht [Hiff _]]]]].
  rewrite Hb in Ha. injection Ha as ->.
  destruct (proj1 Hiff eq_refl) as [-> Hdeg].
  rewrite (is_tree_outcome G Hne) in Ht. injection Ht as Ht.
  apply andb_true_iff in Ht. destruct Ht as [Hcount _].
  apply Z.eqb_eq in Hcount.
  pose (f := fun v => length (filter (fun e => Nat.eqb (snd e) v) (edges G))).
  destruct (one_zero f (nodes G)) as [r [Hr [Hfr Hothers]]].
  - apply NoDup_nodes.
  - intros v Hv. pose proof (Hdeg v Hv) as Hle.
    unfold in_degree_of in Hle. unfold f. lia.
  - unfold f. rewrite sum_in_degrees.
    + lia.
    + apply NoDup_nodes.
    + intros [a b] He. apply (edge_ends_in_nodes G a b He).
  - exists r. split; [exact Hr |]. split.
    + unfold is_root, in_degree_of. fold (f r). now rewrite Hfr.
    + intros v Hv Hneq. unfold in_degree_of. fold (f v).
      now rewrite (Hothers v Hv Hneq).
Qed.

Lemma arborescence_unique_root_witness :
  outcome (is_arborescence dipath3) = Ok true /\
  exists r,
    In r (nodes dipath3) /\ is_root dipath3 r /\
    forall v, In v (nodes dipath3) -> v <> r -> in_degree_of dipath3 v = 1.
Proof.
  split; [reflexivity |].
  apply (arborescence_unique_root dipath3). reflexivity.
Defined.

(** ** Further properties: forests are the graphs without cycles *)

Lemma count_ext {A} (h f : A -> bool) l :
  (forall x, In x l -> (h x = true <-> f x = true)) ->
  length (filter h l) = length (filter f l).
Proof.
  intros H. f_equal. apply filter_ext_in. intros x Hx.
  apply eq_iff_eq_true. now apply H.
Qed.

Lemma count_split {A} (h f g : A -> bool) l :
  (forall x, In x l -> (h x = true <-> f x = true \/ g x = true)) ->
  (forall x, In x l -> f x = true -> g x = true -> False) ->
  length (filter h l) = (length (filter f l) + length (filter g l))%nat.
Proof.
  induction l as [| x l IH]; intros H Hdis; [reflexivity |].
  assert (IH' : length (filter h l)
                = (length (filter f l) + length (filter g l))%nat).
  { apply IH; intros y Hy; [apply H | apply Hdis]; now right. }
  pose proof (H x (or_introl eq_refl)) as Hx.
  pose proof (Hdis x (or_introl eq_refl)) as Hd.
  rewrite !length_filter_cons, IH'.
  destruct (h x), (f x), (g x); simpl; try lia;
    try (exfalso; now apply Hd);
    try (destruct (proj1 Hx eq_refl); discriminate);
    try (assert (false = true) by (apply Hx; auto); discriminate).
Qed.

Lemma count_nodes (p q : node -> bool) l l' :
  NoDup l -> NoDup l' ->
  (forall x, In x l <-> In x l') ->
  (forall x, In x l -> (p x = true <-> q x = true)) ->
  length (filter p l) = length (filter q l').
Proof.
  intros Hl Hl' Hsame Hpq. apply NoDup_same_length.
  - now apply NoDup_filter.
  - now apply NoDup_filter.
  - intros x. rewrite !filter_In. split.
    + intros [Hx Hp]. split; [now apply Hsame | now apply Hpq].
    + intros [Hx Hq]. apply Hsame in Hx. split; [exact Hx | now apply Hpq].
Qed.

Lemma reachb_spec G r x :
  In r (nodes G) -> (reachb G r x = true <-> conn G r x).
Proof.
  intros Hr. unfold reachb. rewrite mem_In. now apply plain_bfs_spec.
Qed.

Lemma conn_dec G r x : In r (nodes G) -> conn G r x \/ ~ conn G r x.
Proof.
  intros Hr. destruct (reachb G r x) eqn:E.
  - left. now apply reachb_spec.
  - right. intros H. apply (reachb_spec G r x Hr) in H. congruence.
Qed.

Lemma comp_size_length G r :
  In r (nodes G) -> comp_size G r = length (plain_bfs G r).
Proof.
  intros Hr. unfold comp_size. apply NoDup_same_length.
  - apply NoDup_filter, NoDup_nodes.
  - apply plain_bfs_NoDup.
  - intros x. rewrite filter_In. unfold reachb. rewrite mem_In. split.
    + tauto.
    + intros Hx. split; [now apply (plain_bfs_incl G r Hr) | exact Hx].
Qed.

Lemma comp_edges_induced G r :
  comp_edges G r = length (induced_edges G (plain_bfs G r)).
Proof. reflexivity. Qed.

Lemma tree_at_tree_count G r :
  In r (nodes G) -> (tree_at G r <-> tree_count G (plain_bfs G r)).
Proof.
  intros Hr. unfold tree_at, tree_count.
  rewrite (comp_size_length G r Hr), comp_edges_induced. lia.
Qed.

(** The loop test of [is_forest], one root per component. *)
Lemma forest_rooted G :
  (forall c, is_component G c -> tree_count G c) <->
  (forall r, In r (nodes G) -> tree_at G r).
Proof.
  split.
  - intros H r Hr. apply (tree_at_tree_count G r Hr).
    apply H. now apply plain_bfs_component.
  - intros H c Hc. pose proof Hc as [_ [r [Hr Hmem]]].
    apply (tree_count_same_nodes G (plain_bfs G r) c).
    + now apply plain_bfs_component.
    + exact Hc.
    + intros x. rewrite Hmem. now apply plain_bfs_spec.
    + apply (tree_at_tree_count G r Hr). now apply H.
Qed.

(** [G'] is [G] with one more edge [e], on the same nodes. *)
Section AddEdge.

Variables (G G' : graph) (e : edge).

Hypothesis same_nodes : forall x, In x (nodes G) <-> In x (nodes G').
Hypothesis one_more : edges G' = e :: edges G.

Lemma add_ends : In (fst e) (nodes G) /\ In (snd e) (nodes G).
Proof.
  assert (H : In (fst e, snd e) (edges G'))
    by (rewrite one_more, <- surjective_pairing; now left).
  apply edge_ends_in_nodes in H. split; apply same_nodes; tauto.
Qed.

Lemma add_adj a b :
  adj G' a b <->
  adj G a b \/ (a = fst e /\ b = snd e) \/ (a = snd e /\ b = fst e).
Proof.
  unfold adj. rewrite one_more. destruct e as [u w]. simpl. split.
  - intros [[H | H] | [H | H]]; try (injection H as <- <-); tauto.
  - intros [[H | H] | [[-> ->] | [-> ->]]]; auto.
Qed.

Lemma add_mono x y : conn G x y -> conn G' x y.
Proof.
  apply conn_ext.
  - intros z. apply same_nodes.
  - intros a b H. apply add_adj. now left.
Qed.

Lemma add_joined : conn G' (fst e) (snd e).
Proof. apply conn_edge, add_adj. right. left. split; reflexivity. Qed.

Lemma add_inv x y :
  conn G' x y ->
  conn G x y \/
  (conn G x (fst e) /\ conn G (snd e) y) \/
  (conn G x (snd e) /\ conn G (fst e) y).
Proof.
  destruct add_ends as [Hu Hw].
  induction 1 as [x Hx | x v y _ IH Hadj].
  - left. apply conn_refl. now apply same_nodes.
  - apply add_adj in Hadj.
    destruct Hadj as [Hadj | [[-> ->] | [-> ->]]].
    + destruct IH as [H | [[H1 H2] | [H1 H2]]].
      * left. eapply conn_step; eauto.
      * right; left. split; [exact H1 | eapply conn_step; eauto].
      * right; right. split; [exact H1 | eapply conn_step; eauto].
    + destruct IH as [H | [[H1 H2] | [H1 H2]]].
      * right; left. split; [exact H | now apply conn_refl].
      * right; left. split; [exact H1 | now apply conn_refl].
      * left. exact H1.
    + destruct IH as [H | [[H1 H2] | [H1 H2]]].
      * right; right. split; [exact H | now apply conn_refl].
      * left. exact H1.
      * right; right. split; [exact H1 | now apply conn_refl].
Qed.

Lemma reachb_add r x :
  In r (nodes G) -> (reachb G' r x = true <-> conn G' r x).
Proof. intros Hr. apply reachb_spec. now apply same_nodes. Qed.

(** Sizes in [G'] can be counted over the nodes of [G]. *)
Lemma comp_size_add r :
  comp_size G' r = length (filter (reachb G' r) (nodes G)).
Proof.
  unfold comp_size. apply count_nodes.
  - apply NoDup_nodes.
  - apply NoDup_nodes.
  - intros x. symmetry. apply same_nodes.
  - tauto.
Qed.

Lemma comp_edges_add r :
  comp_edges G' r
  = ((if reachb G' r (fst e) && reachb G' r (snd e) then 1 else 0)
     + length (filter (fun x => reachb G' r (fst x) && reachb G' r (snd x))
                      (edges G)))%nat.
Proof. unfold comp_edges. rewrite one_more, length_filter_cons. reflexivity. Qed.

(** When a root reaches the same nodes in both graphs. *)
Lemma same_reach_counts r :
  In r (nodes G) ->
  (forall y, conn G' r y <-> conn G r y) ->
  comp_size G' r = comp_size G r /\
  length (filter (fun x => reachb G' r (fst x) && reachb G' r (snd x)) (edges G))
  = comp_edges G r.
Proof.
  intros Hr Hsame. split.
  - rewrite comp_size_add. apply count_ext. intros x _.
    rewrite (reachb_add r x Hr), (reachb_spec G r x Hr). apply Hsame.
  - apply count_ext. intros x _.
    rewrite !andb_true_iff, !(reachb_add r _ Hr), !(reachb_spec G r _ Hr).
    now rewrite !Hsame.
Qed.

(** The new edge joins two nodes that were joined already. *)
Lemma joined_same x y :
  conn G (fst e) (snd e) -> (conn G' x y <-> conn G x y).
Proof.
  intros Huw. split; [| apply add_mono].
  intros H. destruct (add_inv x y H) as [H0 | [[H1 H2] | [H1 H2]]].
  - exact H0.
  - apply conn_trans with (fst e); [exact H1 |].
    apply conn_trans with (snd e); assumption.
  - apply conn_trans with (snd e); [exact H1 |].
    apply conn_trans with (fst e); [now apply conn_sym | exact H2].
Qed.

Lemma joined_counts r :
  In r (nodes G) -> conn G (fst e) (snd e) ->
  comp_size G' r = comp_size G r /\
  (comp_edges G r <= comp_edges G' r)%nat /\
  (r = fst e -> comp_edges G' r = comp_edges G r + 1)%nat.
Proof.
  intros Hr Huw.
  destruct (same_reach_counts r Hr (fun y => joined_same r y Huw)) as [Hs He].
  rewrite comp_edges_add, He. split; [exact Hs |]. split; [lia |].
  intros ->.
  assert (H1 : reachb G' (fst e) (fst e) = true).
  { apply (reachb_add _ _ Hr). apply conn_refl. now apply same_nodes. }
  assert (H2 : reachb G' (fst e) (snd e) = true).
  { apply (reachb_add _ _ Hr). apply add_joined. }
  rewrite H1, H2. simpl. lia.
Qed.

(** The root is joined to neither end of the new edge. *)
Lemma apart_counts r :
  In r (nodes G) -> ~ conn G r (fst e) -> ~ conn G r (snd e) ->
  comp_size G' r = comp_size G r /\ comp_edges G' r = comp_edges G r.
Proof.
  intros Hr Hu Hw.
  assert (Hsame : forall y, conn G' r y <-> conn G r y).
  { intros y. split; [| apply add_mono].
    intros H. destruct (add_inv r y H) as [H0 | [[H1 _] | [H1 _]]];
      [exact H0 | contradiction | contradiction]. }
  destruct (same_reach_counts r Hr Hsame) as [Hs He].
  rewrite comp_edges_add, He. split; [exact Hs |].
  assert (H1 : reachb G' r (fst e) = false).
  { destruct (reachb G' r (fst e)) eqn:E; [| reflexivity].
    exfalso. apply Hu, Hsame. now apply (reachb_add r _ Hr). }
  rewrite H1. reflexivity.
Qed.

(** The root is joined to the end [a] of the new edge, which was not joined
    to its other end [b]: two components become one. *)
Lemma merged_counts r a b :
  (a = fst e /\ b = snd e) \/ (a = snd e /\ b = fst e) ->
  ~ conn G a b -> In r (nodes G) -> conn G r a ->
  comp_size G' r = (comp_size G a + comp_size G b)%nat /\
  comp_edges G' r = (comp_edges G a + comp_edges G b + 1)%nat /\
  comp_size G r = comp_size G a /\
  comp_edges G r = comp_edges G a.
Proof.
  intros Hab Hnot Hr Hra.
  destruct add_ends as [Hu Hw].
  assert (Ha : In a (nodes G)) by (destruct Hab as [[-> _] | [-> _]]; assumption).
  assert (Hb : In b (nodes G)) by (destruct Hab as [[_ ->] | [_ ->]]; assumption).
  assert (Hab' : conn G' a b).
  { destruct Hab as [[-> ->] | [-> ->]];
      [apply add_joined | apply conn_sym, add_joined]. }
  assert (Hmerge : forall y, conn G' r y <-> conn G a y \/ conn G b y).
  { intros y. split.
    - intros H. destruct (add_inv r y H) as [H0 | [[H1 H2] | [H1 H2]]].
      + left. apply conn_trans with r; [now apply conn_sym | exact H0].
      + destruct Hab as [[-> ->] | [-> ->]].
        * now right.
        * exfalso. apply Hnot.
          apply conn_trans with r; [now apply conn_sym | exact H1].
      + destruct Hab as [[-> ->] | [-> ->]].
        * exfalso. apply Hnot.
          apply conn_trans with r; [now apply conn_sym | exact H1].
        * now right.
    - intros [H | H].
      + apply add_mono. now apply conn_trans with a.
      + apply conn_trans with a; [now apply add_mono |].
        apply conn_trans with b; [exact Hab' | now apply add_mono]. }
  assert (Hdis : forall y, conn G a y -> conn G b y -> False).
  { intros y H1 H2. apply Hnot.
    apply conn_trans with y; [exact H1 | now apply conn_sym]. }
  assert (Hsame : forall y, conn G r y <-> conn G a y).
  { intros y. split; intros H.
    - apply conn_trans with r; [now apply conn_sym | exact H].
    - now apply conn_trans with a. }
  split; [| split; [| split]].
  - rewrite comp_size_add. unfold comp_size. apply count_split.
    + intros x _. rewrite (reachb_add r x Hr), (reachb_spec G a x Ha),
        (reachb_spec G b x Hb). apply Hmerge.
    + intros x _. rewrite (reachb_spec G a x Ha), (reachb_spec G b x Hb).
      apply Hdis.
  - rewrite comp_edges_add.
    assert (H1 : reachb G' r (fst e) = true).
    { apply (reachb_add r _ Hr), Hmerge.
      destruct Hab as [[-> ->] | [-> ->]];
        [left | right]; now apply conn_refl. }
    assert (H2 : reachb G' r (snd e) = true).
    { apply (reachb_add r _ Hr), Hmerge.
      destruct Hab as [[-> ->] | [-> ->]];
        [right | left]; now apply conn_refl. }
    rewrite H1, H2. cbn [andb]. unfold comp_edges.
    rewrite (count_split
               (fun x => reachb G' r (fst x) && reachb G' r (snd x))
               (fun x => reachb G a (fst x) && reachb G a (snd x))
               (fun x => reachb G b (fst x) && reachb G b (snd x))).
    + lia.
    + intros [x1 x2] Hx. cbn [fst snd].
      rewrite !andb_true_iff, !(reachb_add r _ Hr),
        !(reachb_spec G a _ Ha), !(reachb_spec G b _ Hb), !Hmerge.
      assert (Hadj : adj G x1 x2) by (now left).
      split.
      * intros [[H | H] _].
        -- left. split; [exact H | eapply conn_step; eauto].
        -- right. split; [exact H | eapply conn_step; eauto].
      * intros [[Hx1 Hx2] | [Hx1 Hx2]]; split; auto.
    + intros [x1 x2] _. cbn [fst snd].
      rewrite !andb_true_iff, !(reachb_spec G a _ Ha), !(reachb_spec G b _ Hb).
      intros [Hx1 _] [Hx1' _]. now apply (Hdis x1).
  - unfold comp_size. apply count_ext. intros x _.
    rewrite (reachb_spec G r x Hr), (reachb_spec G a x Ha). apply Hsame.
  - unfold comp_edges. apply count_ext. intros x _.
    rewrite !andb_true_iff, !(reachb_spec G r _ Hr), !(reachb_spec G a _ Ha).
    now rewrite !Hsame.
Qed.

End AddEdge.

Section AddEdgeSteps.

Variables (G G' : graph) (e : edge).

Hypothesis same_nodes : forall x, In x (nodes G) <-> In x (nodes G').
Hypothesis one_more : edges G' = e :: edges G.
Hypothesis spanned : forall r, In r (nodes G) -> spanned_at G r.

(** Where a root stands with respect to the new edge. *)
Lemma root_cases r :
  In r (nodes G) -> ~ conn G (fst e) (snd e) ->
  (comp_size G' r = (comp_size G (fst e) + comp_size G (snd e))%nat /\
   comp_edges G' r = (comp_edges G (fst e) + comp_edges G (snd e) + 1)%nat /\
   ((comp_size G r = comp_size G (fst e) /\
     comp_edges G r = comp_edges G (fst e)) \/
    (comp_size G r = comp_size G (snd e) /\
     comp_edges G r = comp_edges G (snd e)))) \/
  (comp_size G' r = comp_size G r /\ comp_edges G' r = comp_edges G r).
Proof.
  intros Hr Hnuw.
  destruct (conn_dec G r (fst e) Hr) as [Hru | Hnru].
  - left.
    destruct (merged_counts G G' e same_nodes one_more r (fst e) (snd e)
                (or_introl (conj eq_refl eq_refl)) Hnuw Hr Hru)
      as [Hs [He [Hs0 He0]]].
    split; [exact Hs |]. split; [exact He |]. left. split; assumption.
  - destruct (conn_dec G r (snd e) Hr) as [Hrw | Hnrw].
    + left.
      assert (Hnwu : ~ conn G (snd e) (fst e))
        by (intros H; apply Hnuw; now apply conn_sym).
      destruct (merged_counts G G' e same_nodes one_more r (snd e) (fst e)
                  (or_intror (conj eq_refl eq_refl)) Hnwu Hr Hrw)
        as [Hs [He [Hs0 He0]]].
      split; [lia |]. split; [lia |]. right. split; assumption.
    + right. now apply (apart_counts G G' e same_nodes one_more).
Qed.

Lemma spanned_step r : In r (nodes G') -> spanned_at G' r.
Proof.
  intros Hr'. assert (Hr : In r (nodes G)) by now apply same_nodes.
  destruct (add_ends G G' e same_nodes one_more) as [Hu Hw].
  pose proof (spanned r Hr) as Lr.
  pose proof (spanned _ Hu) as Lu. pose proof (spanned _ Hw) as Lw.
  unfold spanned_at in *.
  destruct (conn_dec G (fst e) (snd e) Hu) as [Huw | Hnuw].
  - destruct (joined_counts G G' e same_nodes one_more r Hr Huw)
      as [Hs [He _]]. lia.
  - destruct (root_cases r Hr Hnuw) as [[Hs [He _]] | [Hs He]]; lia.
Qed.

Lemma tree_step :
  (forall r, In r (nodes G') -> tree_at G' r) <->
  (forall r, In r (nodes G) -> tree_at G r) /\ ~ conn G (fst e) (snd e).
Proof.
  destruct (add_ends G G' e same_nodes one_more) as [Hu Hw].
  pose proof (spanned _ Hu) as Lu. pose proof (spanned _ Hw) as Lw.
  unfold spanned_at, tree_at in *. split.
  - intros HT'.
    assert (Hnuw : ~ conn G (fst e) (snd e)).
    { intros Huw.
      destruct (joined_counts G G' e same_nodes one_more _ Hu Huw)
        as [Hs [_ He]].
      specialize (He eq_refl).
      pose proof (HT' _ (proj1 (same_nodes _) Hu)). lia. }
    split; [| exact Hnuw]. intros r Hr.
    pose proof (HT' r (proj1 (same_nodes r) Hr)) as Tr.
    destruct (root_cases r Hr Hnuw)
      as [[Hs [He [[Hs0 He0] | [Hs0 He0]]]] | [Hs He]]; lia.
  - intros [HT Hnuw] r Hr'.
    assert (Hr : In r (nodes G)) by now apply same_nodes.
    pose proof (HT r Hr) as Tr.
    pose proof (HT _ Hu) as Tu. pose proof (HT _ Hw) as Tw.
    destruct (root_cases r Hr Hnuw) as [[Hs [He _]] | [Hs He]]; lia.
Qed.

End AddEdgeSteps.

(** The graphs on the nodes of one graph, edge by edge. *)
Section EdgeByEdge.

Variable G0 : graph.

Lemma edges_ok_edges : edges_ok G0 (edges G0).
Proof. intros [a b] He. apply (edge_ends_in_nodes G0 a b He). Qed.

Lemma edges_ok_tail e es : edges_ok G0 (e :: es) -> edges_ok G0 es.
Proof. intros H x Hx. apply H. now right. Qed.

Lemma edges_ok_without es1 e es2 :
  edges_ok G0 (es1 ++ e :: es2) -> edges_ok G0 (es1 ++ es2).
Proof.
  intros H x Hx. apply H. apply in_app_or in Hx. apply in_or_app.
  destruct Hx; [now left | right; now right].
Qed.

Lemma edges_ok_front es1 e es2 :
  edges_ok G0 (es1 ++ e :: es2) -> edges_ok G0 (e :: es1 ++ es2).
Proof.
  intros H x [<- | Hx].
  - apply H. apply in_or_app. right. now left.
  - now apply (edges_ok_without es1 e es2).
Qed.

Lemma nodes_with_edges es x :
  edges_ok G0 es -> (In x (nodes (with_edges G0 es)) <-> In x (nodes G0)).
Proof.
  intros Hok. unfold with_edges, nodes at 1. cbn [nodes_from edges_from].
  rewrite nodup_In, in_app_iff, in_flat_map. split.
  - intros [H | [e [He Hx]]]; [exact H |].
    destruct (Hok e He) as [H1 H2].
    destruct Hx as [<- | [<- | []]]; assumption.
  - intros H. now left.
Qed.

Lemma with_edges_same_nodes e es x :
  edges_ok G0 (e :: es) ->
  (In x (nodes (with_edges G0 es)) <-> In x (nodes (with_edges G0 (e :: es)))).
Proof.
  intros Hok. rewrite (nodes_with_edges (e :: es) x Hok).
  apply nodes_with_edges. now apply (edges_ok_tail e).
Qed.

Lemma no_edges_counts G r :
  edges G = [] -> In r (nodes G) ->
  comp_size G r = 1%nat /\ comp_edges G r = 0%nat.
Proof.
  intros He Hr. split.
  - rewrite (comp_size_length G r Hr).
    apply (length_singleton _ r (plain_bfs_NoDup G r)).
    intros v. rewrite (plain_bfs_spec G r Hr). split.
    + intros H. symmetry. now apply (conn_no_edges G r v).
    + intros ->. now apply conn_refl.
  - unfold comp_edges. now rewrite He.
Qed.

Lemma spanned_with_edges : forall es,
  edges_ok G0 es ->
  forall r, In r (nodes (with_edges G0 es)) -> spanned_at (with_edges G0 es) r.
Proof.
  induction es as [| e es IH]; intros Hok r Hr.
  - destruct (no_edges_counts (with_edges G0 []) r eq_refl Hr) as [Hs He].
    unfold spanned_at. lia.
  - apply (spanned_step (with_edges G0 es) (with_edges G0 (e :: es)) e).
    + intros x. now apply with_edges_same_nodes.
    + reflexivity.
    + apply IH. now apply (edges_ok_tail e).
    + exact Hr.
Qed.

Lemma with_edges_mono e es u w :
  edges_ok G0 (e :: es) ->
  conn (with_edges G0 es) u w -> conn (with_edges G0 (e :: es)) u w.
Proof.
  intros Hok. apply (add_mono (with_edges G0 es) (with_edges G0 (e :: es)) e).
  - intros x. now apply with_edges_same_nodes.
  - reflexivity.
Qed.

(** Taking an edge to the front changes nothing but the order. *)
Lemma front_same_underlying es1 e es2 :
  edges_ok G0 (es1 ++ e :: es2) ->
  same_underlying (with_edges G0 (es1 ++ e :: es2))
                  (with_edges G0 (e :: es1 ++ es2)).
Proof.
  intros Hok.
  assert (Hin : forall x, In x (es1 ++ e :: es2) <-> In x (e :: es1 ++ es2)).
  { intros x. simpl. rewrite !in_app_iff. simpl. tauto. }
  split; [| split].
  - intros x. rewrite (nodes_with_edges _ x Hok).
    symmetry. apply nodes_with_edges. now apply edges_ok_front.
  - intros a b. unfold adj, with_edges, edges. cbn [edges_from].
    now rewrite !Hin.
  - intros c. unfold induced_edges, with_edges, edges. cbn [edges_from].
    rewrite filter_app, length_app, !length_filter_cons, filter_app, length_app.
    lia.
Qed.

Lemma rooted_transfer G G' :
  same_underlying G G' ->
  (forall r, In r (nodes G) -> tree_at G r) ->
  forall r, In r (nodes G') -> tree_at G' r.
Proof.
  intros Hs H. apply forest_rooted.
  apply (same_underlying_forest_prop G G' Hs). now apply forest_rooted.
Qed.

(** In a forest every edge is the only way between its two ends... *)
Lemma forest_then_bridges es1 e es2 :
  edges_ok G0 (es1 ++ e :: es2) ->
  (forall r, In r (nodes (with_edges G0 (es1 ++ e :: es2))) ->
             tree_at (with_edges G0 (es1 ++ e :: es2)) r) ->
  (forall r, In r (nodes (with_edges G0 (es1 ++ es2))) ->
             tree_at (with_edges G0 (es1 ++ es2)) r) /\
  ~ conn (with_edges G0 (es1 ++ es2)) (fst e) (snd e).
Proof.
  intros Hok HT.
  pose proof (edges_ok_front es1 e es2 Hok) as Hok'.
  apply (tree_step (with_edges G0 (es1 ++ es2))
                   (with_edges G0 (e :: es1 ++ es2)) e).
  - intros x. now apply with_edges_same_nodes.
  - reflexivity.
  - apply spanned_with_edges. now apply (edges_ok_tail e).
  - apply (rooted_transfer (with_edges G0 (es1 ++ e :: es2))).
    + now apply front_same_underlying.
    + exact HT.
Qed.

(** ... and a graph where every edge is the only way between its two ends
    is a forest. *)
Lemma bridges_then_forest : forall es,
  edges_ok G0 es ->
  (forall es1 e es2, es = es1 ++ e :: es2 ->
     ~ conn (with_edges G0 (es1 ++ es2)) (fst e) (snd e)) ->
  forall r, In r (nodes (with_edges G0 es)) -> tree_at (with_edges G0 es) r.
Proof.
  induction es as [| e es IH]; intros Hok Hbr.
  - intros r Hr.
    destruct (no_edges_counts (with_edges G0 []) r eq_refl Hr) as [Hs He].
    unfold tree_at. lia.
  - apply (tree_step (with_edges G0 es) (with_edges G0 (e :: es)) e).
    + intros x. now apply with_edges_same_nodes.
    + reflexivity.
    + apply spanned_with_edges. now apply (edges_ok_tail e).
    + split.
      * apply IH; [now apply (edges_ok_tail e) |].
        intros es1 e' es2 -> Hconn.
        apply (Hbr (e :: es1) e' es2 eq_refl). cbn [app].
        apply with_edges_mono; [| exact Hconn].
        apply (edges_ok_without (e :: es1) e' es2). exact Hok.
      * apply (Hbr [] e es eq_refl).
Qed.

Lemma with_edges_self : same_underlying (with_edges G0 (edges G0)) G0.
Proof.
  split; [| split].
  - intros x. apply nodes_with_edges, edges_ok_edges.
  - intros a b. reflexivity.
  - intros c. reflexivity.
Qed.

Lemma forest_test_no_cycle :
  (forall c, is_component G0 c -> tree_count G0 c) <-> no_cycle G0.
Proof.
  split.
  - intros H es1 e es2 Heq.
    apply forest_then_bridges.
    + rewrite <- Heq. apply edges_ok_edges.
    + rewrite <- Heq. apply forest_rooted.
      apply (same_underlying_forest_prop G0); [| exact H].
      apply same_underlying_sym, with_edges_self.
  - intros Hnc.
    apply (same_underlying_forest_prop (with_edges G0 (edges G0)) G0
             with_edges_self).
    apply forest_rooted. apply bridges_then_forest.
    + apply edges_ok_edges.
    + exact Hnc.
Qed.

End EdgeByEdge.

Lemma is_forest_true_iff G :
  nodes G <> [] -> (outcome (is_forest G) = Ok true <-> no_cycle G).
Proof.
  intros Hne. rewrite (is_forest_outcome G Hne).
  rewrite <- forest_test_no_cycle, <- forest_test_spec.
  split; [intros H; now injection H | intros ->; reflexivity].
Qed.

Lemma cycle_answers G :
  nodes G <> [] -> ~ no_cycle G ->
  outcome (is_forest G) = Ok false /\ outcome (is_tree G) = Ok false.
Proof.
  intros Hne Hcyc.
  assert (Hf : outcome (is_forest G) = Ok false).
  { pose proof (is_forest_true_iff G Hne) as Hiff.
    rewrite (is_forest_outcome G Hne) in *.
    destruct (forallb tree_countb (map (subgraph G) (component_node_lists G)));
      [| reflexivity].
    exfalso. apply Hcyc, Hiff. reflexivity. }
  split; [exact Hf |].
  pose proof (tree_then_forest G Hne) as Htf.
  rewrite (is_tree_outcome G Hne) in *.
  destruct ((Z.of_nat (length (edges G)) =? Z.of_nat (length (nodes G)) - 1)
            && connectedb G); [| reflexivity].
  rewrite Hf in Htf. specialize (Htf eq_refl). discriminate.
Qed.

(** X8. [is_forest] returns [true] exactly on the graphs without undirected
    cycle: those where no edge has its two end points still joined by a walk
    once that edge is removed. *)
Theorem is_forest_iff_no_cycle G :
  nodes G <> [] ->
  (outcome (is_forest G) = Ok true <-> no_cycle G).
Proof.
  intros Hne. rewrite (is_forest_outcome G Hne). split.
  - intros H. injection H as H.
    apply forest_test_no_cycle. now apply forest_test_spec.
  - intros Hnc. f_equal.
    apply forest_test_spec. now apply forest_test_no_cycle.
Qed.

Lemma is_forest_iff_no_cycle_witness :
  nodes two_arcs <> [] /\
  (outcome (is_forest two_arcs) = Ok true <-> no_cycle two_arcs).
Proof.
  split; [vm_compute; discriminate |].
  apply (is_forest_iff_no_cycle two_arcs). vm_compute. discriminate.
Defined.

(** X9. [is_tree] returns [true] exactly on the connected graphs without
    undirected cycle. *)
Theorem is_tree_iff_connected_no_cycle G :
  nodes G <> [] ->
  (outcome (is_tree G) = Ok true <-> connected G /\ no_cycle G).
Proof.
  intros Hne. split.
  - intros Ht. split.
    + rewrite (is_tree_outcome G Hne) in Ht. injection Ht as Ht.
      apply andb_true_iff in Ht. now apply (connectedb_spec G Hne).
    + apply (is_forest_true_iff G Hne). now apply tree_then_forest.
  - intros [Hc Hnc]. apply (is_forest_true_iff G Hne) in Hnc.
    rewrite (is_forest_outcome G Hne) in Hnc. injection Hnc as Hnc.
    rewrite (connected_forest_test G Hne Hc) in Hnc.
    rewrite (is_tree_outcome G Hne), Hnc.
    now rewrite (proj2 (connectedb_spec G Hne) Hc).
Qed.

Lemma is_tree_iff_connected_no_cycle_witness :
  nodes path3 <> [] /\
  (outcome (is_tree path3) = Ok true <-> connected path3 /\ no_cycle path3).
Proof.
  split; [vm_compute; discriminate |].
  apply (is_tree_iff_connected_no_cycle path3). vm_compute. discriminate.
Defined.

(** X10. A graph with a self-loop is neither a forest nor a tree: both
    predicates return [false]. *)
Theorem self_loop_rejected G v :
  In (v, v) (edges G) ->
  outcome (is_forest G) = Ok false /\ outcome (is_tree G) = Ok false.
Proof.
  intros Hin.
  assert (Hv : In v (nodes G)) by apply (edge_ends_in_nodes G v v Hin).
  apply cycle_answers.
  - intros He. rewrite He in Hv. destruct Hv.
  - intros Hnc. destruct (in_split _ _ Hin) as [es1 [es2 Heq]].
    apply (Hnc es1 (v, v) es2 Heq). cbn [fst snd]. apply conn_refl.
    apply nodes_with_edges; [| exact Hv].
    apply (edges_ok_without G es1 (v, v) es2).
    pose proof (edges_ok_edges G) as Hok. rewrite Heq in Hok. exact Hok.
Qed.

Lemma self_loop_rejected_witness :
  In (1, 1)%nat (edges (DiGraph [] [(0, 1); (1, 1)]%nat)) /\
  outcome (is_forest (DiGraph [] [(0, 1); (1, 1)]%nat)) = Ok false /\
  outcome (is_tree (DiGraph [] [(0, 1); (1, 1)]%nat)) = Ok false.
Proof.
  assert (H : In (1, 1)%nat (edges (DiGraph [] [(0, 1); (1, 1)]%nat)))
    by (right; left; reflexivity).
  split; [exact H |].
  apply (self_loop_rejected (DiGraph [] [(0, 1); (1, 1)]%nat) 1%nat H).
Defined.

(** X11. Two edges between the same two nodes, in the same or in opposite
    directions, are counted as two edges of the underlying multigraph: a
    graph that has such a pair is neither a forest nor a tree. *)
Theorem parallel_edges_rejected G es1 e1 es2 e2 es3 :
  edges G = es1 ++ e1 :: es2 ++ e2 :: es3 ->
  e2 = e1 \/ e2 = swap e1 ->
  outcome (is_forest G) = Ok false /\ outcome (is_tree G) = Ok false.
Proof.
  intros Heq Hpar.
  assert (Hin : In (fst e1, snd e1) (edges G)).
  { rewrite Heq, <- surjective_pairing. apply in_or_app. right. now left. }
  apply edge_ends_in_nodes in Hin.
  apply cycle_answers.
  - intros He. rewrite He in Hin. destruct Hin as [[] _].
  - intros Hnc. apply (Hnc es1 e1 (es2 ++ e2 :: es3) Heq).
    apply conn_edge. unfold adj, with_edges, edges. cbn [edges_from].
    assert (Hin2 : In e2 (es1 ++ es2 ++ e2 :: es3)).
    { apply in_or_app. right. apply in_or_app. right. now left. }
    destruct Hpar as [-> | ->].
    + left. now rewrite <- surjective_pairing.
    + right. exact Hin2.
Qed.

Lemma parallel_edges_rejected_witness :
  edges (DiGraph [] [(0, 1); (1, 0)]%nat)
  = [] ++ (0, 1)%nat :: [] ++ (1, 0)%nat :: [] /\
  ((1, 0)%nat = (0, 1)%nat \/ (1, 0)%nat = swap (0, 1)%nat) /\
  outcome (is_forest (DiGraph [] [(0, 1); (1, 0)]%nat)) = Ok false /\
  outcome (is_tree (DiGraph [] [(0, 1); (1, 0)]%nat)) = Ok false.
Proof.
  split; [reflexivity |]. split; [right; reflexivity |].
  apply (parallel_edges_rejected (DiGraph [] [(0, 1); (1, 0)]%nat)
           [] (0, 1)%nat [] (1, 0)%nat []);
    [reflexivity | right; reflexivity].
Defined.

(** ** Further properties: removing and adding an edge *)

Lemma is_forest_true_nodes G : outcome (is_forest G) = Ok true -> nodes G <> [].
Proof.
  intros H He. rewrite (is_forest_empty G He) in H. discriminate.
Qed.

Lemma is_forest_true_rooted G :
  nodes G <> [] ->
  (outcome (is_forest G) = Ok true <-> forall r, In r (nodes G) -> tree_at G r).
Proof.
  intros Hne. rewrite (is_forest_outcome G Hne), <- forest_rooted,
    <- forest_test_spec.
  split; [intros H; now injection H | intros ->; reflexivity].
Qed.

Lemma with_edges_nonempty G es :
  edges_ok G es -> nodes G <> [] -> nodes (with_edges G es) <> [].
Proof.
  intros Hok Hne He. destruct (nodes G) as [| v rest] eqn:Hn; [congruence |].
  assert (Hv : In v (nodes (with_edges G es))).
  { apply nodes_with_edges; [exact Hok | rewrite Hn; now left]. }
  rewrite He in Hv. destruct Hv.
Qed.

Lemma edges_ok_split G es1 e es2 :
  edges G = es1 ++ e :: es2 -> edges_ok G (es1 ++ e :: es2).
Proof.
  intros Heq. pose proof (edges_ok_edges G) as Hok.
  rewrite Heq in Hok. exact Hok.
Qed.

(** What is left of a forest when one edge is taken out. *)
Lemma forest_minus_edge_facts G es1 e es2 :
  outcome (is_forest G) = Ok true ->
  edges G = es1 ++ e :: es2 ->
  outcome (is_forest (with_edges G (es1 ++ es2))) = Ok true /\
  ~ conn (with_edges G (es1 ++ es2)) (fst e) (snd e).
Proof.
  intros Hf Heq. pose proof (is_forest_true_nodes G Hf) as Hne.
  pose proof (edges_ok_split G es1 e es2 Heq) as Hok.
  pose proof (proj1 (is_forest_true_rooted G Hne) Hf) as HTG.
  assert (HT : forall r, In r (nodes (with_edges G (es1 ++ e :: es2))) ->
                         tree_at (with_edges G (es1 ++ e :: es2)) r).
  { rewrite <- Heq.
    apply (rooted_transfer G); [| exact HTG].
    apply same_underlying_sym, with_edges_self. }
  destruct (forest_then_bridges G es1 e es2 Hok HT) as [HT' Hnot].
  split; [| exact Hnot].
  apply is_forest_true_rooted; [| exact HT'].
  apply with_edges_nonempty; [| exact Hne].
  now apply (edges_ok_without G es1 e es2).
Qed.

(** X12. Removing one edge from a forest leaves a forest. *)
Theorem forest_minus_edge G es1 e es2 :
  outcome (is_forest G) = Ok true ->
  edges G = es1 ++ e :: es2 ->
  outcome (is_forest (with_edges G (es1 ++ es2))) = Ok true.
Proof.
  intros Hf Heq. apply (forest_minus_edge_facts G es1 e es2 Hf Heq).
Qed.

Lemma forest_minus_edge_witness :
  outcome (is_forest path3) = Ok true /\
  edges path3 = [] ++ (0, 1)%nat :: [(1, 2)%nat] /\
  outcome (is_forest (with_edges path3 ([] ++ [(1, 2)%nat]))) = Ok true.
Proof.
  split; [reflexivity |]. split; [reflexivity |].
  apply (forest_minus_edge path3 [] (0, 1)%nat [(1, 2)%nat]); reflexivity.
Defined.

(** X13. Removing any one edge from a tree disconnects it: what is left is
    not connected, and [is_tree] returns [false] on it. *)
Theorem tree_minus_edge G es1 e es2 :
  outcome (is_tree G) = Ok true ->
  edges G = es1 ++ e :: es2 ->
  ~ connected (with_edges G (es1 ++ es2)) /\
  outcome (is_tree (with_edges G (es1 ++ es2))) = Ok false.
Proof.
  intros Ht Heq.
  assert (Hne : nodes G <> []).
  { intros He. rewrite (is_tree_empty G He) in Ht. discriminate. }
  pose proof (tree_then_forest G Hne Ht) as Hf.
  destruct (forest_minus_edge_facts G es1 e es2 Hf Heq) as [_ Hnot].
  pose proof (edges_ok_split G es1 e es2 Heq) as Hok.
  pose proof (edges_ok_without G es1 e es2 Hok) as Hok'.
  assert (Hnc : ~ connected (with_edges G (es1 ++ es2))).
  { intros Hc. apply Hnot.
    destruct (Hok e) as [Hu Hw]; [apply in_or_app; right; now left |].
    apply Hc; apply nodes_with_edges; assumption. }
  split; [exact Hnc |].
  pose proof (with_edges_nonempty G _ Hok' Hne) as Hne'.
  rewrite (is_tree_outcome _ Hne'). f_equal.
  apply andb_false_iff. right.
  destruct (connectedb (with_edges G (es1 ++ es2))) eqn:E; [| reflexivity].
  exfalso. apply Hnc. now apply (connectedb_spec _ Hne').
Qed.

Lemma tree_minus_edge_witness :
  outcome (is_tree path3) = Ok true /\
  edges path3 = [(0, 1)%nat] ++ (1, 2)%nat :: [] /\
  ~ connected (with_edges path3 ([(0, 1)%nat] ++ [])) /\
  outcome (is_tree (with_edges path3 ([(0, 1)%nat] ++ []))) = Ok false.
Proof.
  split; [reflexivity |]. split; [reflexivity |].
  apply (tree_minus_edge path3 [(0, 1)%nat] (1, 2)%nat []); reflexivity.
Defined.

(** X14. Adding an edge between two nodes of a forest gives a forest exactly
    when the two nodes were not joined before: an edge inside a component,
    so any edge added to a tree, closes a cycle. *)
Theorem forest_plus_edge G u w :
  outcome (is_forest G) = Ok true ->
  In u (nodes G) -> In w (nodes G) ->
  (outcome (is_forest (with_edges G ((u, w) :: edges G))) = Ok true
   <-> ~ conn G u w).
Proof.
  intros Hf Hu Hw. pose proof (is_forest_true_nodes G Hf) as Hne.
  assert (Hok : edges_ok G ((u, w) :: edges G)).
  { intros x [<- | Hx]; [split; assumption | now apply edges_ok_edges]. }
  pose proof (with_edges_nonempty G _ Hok Hne) as Hne'.
  rewrite (is_forest_true_rooted _ Hne').
  rewrite (tree_step (with_edges G (edges G))
             (with_edges G ((u, w) :: edges G)) (u, w)).
  - cbn [fst snd]. split.
    + intros [_ Hnot] Hc. apply Hnot.
      apply (same_underlying_conn G); [| exact Hc].
      apply same_underlying_sym, with_edges_self.
    + intros Hnot. split.
      * apply (rooted_transfer G).
        -- apply same_underlying_sym, with_edges_self.
        -- now apply is_forest_true_rooted.
      * intros Hc. apply Hnot.
        apply (same_underlying_conn (with_edges G (edges G)));
          [apply with_edges_self | exact Hc].
  - intros x. now apply with_edges_same_nodes.
  - reflexivity.
  - apply spanned_with_edges, edges_ok_edges.
Qed.

Lemma forest_plus_edge_witness :
  outcome (is_forest two_arcs) = Ok true /\
  In 1%nat (nodes two_arcs) /\ In 2%nat (nodes two_arcs) /\
  (outcome (is_forest (with_edges two_arcs ((1, 2)%nat :: edges two_arcs)))
   = Ok true <-> ~ conn two_arcs 1%nat 2%nat).
Proof.
  assert (H1 : In 1%nat (nodes two_arcs)) by (vm_compute; auto).
  assert (H2 : In 2%nat (nodes two_arcs)) by (vm_compute; auto).
  split; [reflexivity |]. split; [exact H1 |]. split; [exact H2 |].
  apply (forest_plus_edge two_arcs 1%nat 2%nat eq_refl H1 H2).
Defined.

(** ** Further properties: trees among forests *)

Lemma tree_iff_connected_forest G :
  nodes G <> [] ->
  (outcome (is_tree G) = Ok true <->
   connected G /\ outcome (is_forest G) = Ok true).
Proof.
  intros Hne. rewrite (is_tree_outcome G Hne), (is_forest_outcome G Hne). split.
  - intros H. injection H as H. apply andb_true_iff in H.
    destruct H as [Hcount Hc]. apply (connectedb_spec G Hne) in Hc.
    split; [exact Hc |]. now rewrite (connected_forest_test G Hne Hc), Hcount.
  - intros [Hc Hf]. injection Hf as Hf.
    rewrite (connected_forest_test G Hne Hc) in Hf. rewrite Hf.
    now rewrite (proj2 (connectedb_spec G Hne) Hc).
Qed.

(** X15. The arborescences are the weakly connected branchings:
    [is_arborescence] returns [true] exactly when [is_branching] returns
    [true] and the graph is connected once directions are ignored. *)
Theorem is_arborescence_iff_connected_branching G :
  outcome (is_arborescence G) = Ok true <->
  outcome (is_branching G) = Ok true /\ connected G.
Proof.
  rewrite is_arborescence_directed_only, is_branching_directed_only.
  destruct (directed G) eqn:Hd.
  - destruct (nodes G) as [| v rest] eqn:Hn.
    + destruct (directed_only_undefined is_tree is_tree_empty is_tree_quiet
                  G Hd Hn) as [Ha _].
      destruct (directed_only_undefined is_forest is_forest_empty
                  is_forest_quiet G Hd Hn) as [Hb _].
      rewrite Ha, Hb. split; [discriminate | intros [H _]; discriminate].
    + assert (Hne : nodes G <> []) by (rewrite Hn; discriminate).
      destruct (directed_only_defined is_tree is_tree_returns is_tree_quiet
                  G Hd Hne) as [b [t [Hb [Ht [Hiff _]]]]].
      destruct (directed_only_defined is_forest is_forest_returns
                  is_forest_quiet G Hd Hne) as [b' [f [Hb' [Hf [Hiff' _]]]]].
      pose proof (tree_iff_connected_forest G Hne) as Htf.
      rewrite Ht, Hf in Htf. rewrite Hb, Hb'.
      split.
      * intros H. injection H as ->.
        destruct (proj1 Hiff eq_refl) as [-> Hdeg].
        destruct (proj1 Htf eq_refl) as [Hc Hft]. injection Hft as ->.
        split; [| exact Hc]. f_equal. apply Hiff'. now split.
      * intros [H Hc]. injection H as ->.
        destruct (proj1 Hiff' eq_refl) as [-> Hdeg].
        f_equal. apply Hiff. split; [| exact Hdeg].
        assert (Ht' : Ok t = Ok true) by (apply Htf; now split).
        now injection Ht'.
  - rewrite (directed_only_undirected is_tree G Hd),
      (directed_only_undirected is_forest G Hd).
    split; [discriminate | intros [H _]; discriminate].
Qed.

Lemma is_arborescence_iff_connected_branching_witness :
  outcome (is_arborescence two_arcs) = Ok false /\
  outcome (is_branching two_arcs) = Ok true /\
  (outcome (is_arborescence two_arcs) = Ok true <->
   outcome (is_branching two_arcs) = Ok true /\ connected two_arcs).
Proof.
  split; [reflexivity |]. split; [reflexivity |].
  apply (is_arborescence_iff_connected_branching two_arcs).
Defined.

(** A walk from a node of a component stays in the component view. *)
Lemma conn_in_subgraph G c r :
  is_component G c -> In r c ->
  forall x, conn G r x -> conn (subgraph G c) r x.
Proof.
  intros Hc Hr x Hx. pose proof (component_incl G c Hc) as Hi.
  pose proof Hc as [_ [r0 [Hr0 Hmem]]].
  assert (Hin : forall y, conn G r y -> In y c).
  { intros y Hy. apply Hmem. apply conn_trans with r; [now apply Hmem | exact Hy]. }
  induction Hx as [r _ | r v w Hrv IH Hadj].
  - apply conn_refl. now apply nodes_subgraph.
  - eapply conn_step; [now apply IH |].
    assert (Hv : In v c) by now apply Hin.
    assert (Hw : In w c) by (apply Hin; eapply conn_step; eauto).
    unfold adj, subgraph, edges, induced_edges. cbn [edges_from].
    rewrite !filter_In. cbn [fst snd].
    apply mem_In in Hv. apply mem_In in Hw. rewrite Hv, Hw.
    destruct Hadj as [H | H]; [left | right]; split; auto.
Qed.

Lemma component_view_connected G c :
  is_component G c -> connected (subgraph G c).
Proof.
  intros Hc u w Hu Hw. pose proof (component_incl G c Hc) as Hi.
  apply (nodes_subgraph G c u Hi) in Hu. apply (nodes_subgraph G c w Hi) in Hw.
  apply (conn_in_subgraph G c u Hc Hu).
  pose proof Hc as [_ [r [_ Hmem]]].
  apply conn_trans with r; [apply conn_sym |]; now apply Hmem.
Qed.

Lemma component_view_is_tree G c :
  is_component G c ->
  (outcome (is_tree (subgraph G c)) = Ok true <-> tree_count G c).
Proof.
  intros Hc. pose proof (component_incl G c Hc) as Hi.
  assert (Hne : nodes (subgraph G c) <> []).
  { pose proof Hc as [_ [r [Hr Hmem]]].
    assert (Hrc : In r (nodes (subgraph G c))).
    { apply (nodes_subgraph G c r Hi). apply Hmem. now apply conn_refl. }
    intros He. rewrite He in Hrc. destruct Hrc. }
  rewrite (is_tree_outcome _ Hne).
  rewrite (proj2 (connectedb_spec _ Hne) (component_view_connected G c Hc)).
  rewrite andb_true_r, <- (tree_countb_subgraph G c Hc). unfold tree_countb.
  split; [intros H; now injection H | intros ->; reflexivity].
Qed.

(** X16. The loop of [is_forest] makes sure each component is a tree:
    [is_forest] returns [true] exactly when [is_tree] returns [true] on the
    view of every connected component. *)
Theorem is_forest_iff_components_are_trees G :
  nodes G <> [] ->
  (outcome (is_forest G) = Ok true <->
   forall c, is_component G c -> outcome (is_tree (subgraph G c)) = Ok true).
Proof.
  intros Hne. rewrite (is_forest_outcome G Hne). split.
  - intros H c Hc. injection H as H.
    apply (component_view_is_tree G c Hc). now apply forest_test_spec.
  - intros H. f_equal. apply forest_test_spec. intros c Hc.
    apply (component_view_is_tree G c Hc). now apply H.
Qed.

Lemma is_forest_iff_components_are_trees_witness :
  nodes two_arcs <> [] /\
  (outcome (is_forest two_arcs) = Ok true <->
   forall c, is_component two_arcs c ->
             outcome (is_tree (subgraph two_arcs c)) = Ok true).
Proof.
  split; [vm_compute; discriminate |].
  apply (is_forest_iff_components_are_trees two_arcs).
  vm_compute. discriminate.
Defined.
